(** * The API-chaining engine of makeyourjarvis

    A shallow embedding of the two route handlers that carry the chaining
    engine,

      - [src/app/api/chainFetch/route.ts]  (POST /api/chainFetch), and
      - [src/app/api/openFetch/route.ts]   (POST /api/openFetch),

    and the properties their specification states about them.

    JavaScript values are modelled as trees ([json]); functions that can
    throw return a [completion]; the outbound network is an oracle handed to
    the handlers, and every handler returns, next to its reply, the log of
    the calls to [makeApiCall] it made. *)

From Stdlib Require Import Ascii String Floats Uint63 ZArith.
From stdpp Require Import base option list gmap strings pretty.

Set Warnings "-register-all".
Local Open Scope string_scope.

(** ** Strings: the two [String.prototype] methods the routes use *)

(** [s.includes(sub)] *)
Fixpoint includes (s sub : string) : bool :=
  String.prefix sub s ||
  match s with
  | EmptyString => false
  | String _ s' => includes s' sub
  end.

(** [s.split(sep)] for a separator of one character (the routes split on
    ['/'] and ['.']).  The result is never empty: [''.split('.')] is ['']. *)
Fixpoint split (sep : ascii) (s : string) : list string :=
  match s with
  | EmptyString => [EmptyString]
  | String c s' =>
      if Ascii.eqb c sep then EmptyString :: split sep s'
      else match split sep s' with
           | [] => [String c EmptyString]
           | seg :: segs => String c seg :: segs
           end
  end.

(** ** Values *)

(** What [response.blob()] and [response.arrayBuffer()] resolve to. *)
Inductive binary_kind := Blob | ArrayBuffer.

(** The values that flow through the engine: what [JSON.parse] produces,
    [undefined], and the two binary containers.  An object keeps its
    properties as an association list, in the order in which the engine
    lists them ([Object.keys], [JSON.stringify]): the keys that are array
    indices first, in ascending order, then the other keys in the order in
    which they were added.  [set_field] keeps that order, and a key occurs
    at most once in a list it builds. *)
Inductive json : Type :=
| JUndef
| JNull
| JBool (b : bool)
| JNum (x : float)
| JStr (s : string)
| JArr (items : list json)
| JObj (fields : list (string * json))
| JBin (k : binary_kind) (bytes : string).

(** ToBoolean: [undefined], [null], [false], [+0], [-0], [NaN] and [''] are
    falsy, every other value is truthy. *)
Definition truthy (v : json) : bool :=
  match v with
  | JUndef | JNull => false
  | JBool b => b
  | JNum x => negb (PrimFloat.is_zero x || PrimFloat.is_nan x)
  | JStr s => negb (String.eqb s "")
  | JArr _ | JObj _ | JBin _ _ => true
  end.

(** [a || b] on values. *)
Definition js_or (a b : json) : json := if truthy a then a else b.

(** ** Completions *)

(** The errors the routes can raise.  [HttpError] and [ParseError] are the
    two [new Error(...)] of [makeApiCall]; [Rejected] is a rejected promise of
    the platform ([fetch], [response.json()]); [TypeError] stands for the
    engine's own errors. *)
Inductive js_error :=
| HttpError (status : Z) (statusText : string) (details : option string)
| ParseError (responseType : string) (cause : string)
| Rejected (message : string)
| TypeError (message : string).

(** The outcome of evaluating a piece of the routes: a value, a thrown error,
    or [Beyond]: the evaluation reached a built-in member through the
    prototype chain (a method such as [toString], or the [__proto__]
    accessor) and its result is not a [json] value. *)
Inductive completion (A : Type) : Type :=
| Normal (a : A)
| Throw (e : js_error)
| Beyond.
Arguments Normal {A} a.
Arguments Throw {A} e.
Arguments Beyond {A}.

#[global] Instance completion_ret : MRet completion := @Normal.
#[global] Instance completion_bind : MBind completion := fun A B f c =>
  match c with
  | Normal a => f a
  | Throw e => Throw e
  | Beyond => Beyond
  end.
#[global] Instance completion_fmap : FMap completion := fun A B f c =>
  match c with
  | Normal a => Normal (f a)
  | Throw e => Throw e
  | Beyond => Beyond
  end.

Definition is_normal {A} (c : completion A) : bool :=
  match c with Normal _ => true | _ => false end.

(** ** Property access *)

(** Own properties of an object. *)
Fixpoint get_field (k : string) (fs : list (string * json)) : option json :=
  match fs with
  | [] => None
  | (k', v) :: fs' => if String.eqb k k' then Some v else get_field k fs'
  end.

Definition has_field (k : string) (fs : list (string * json)) : bool :=
  match get_field k fs with Some _ => true | None => false end.

(** A canonical array index: the decimal notation of a natural number, with
    no leading zero. *)
Definition digit (c : ascii) : option N :=
  let n := N_of_ascii c in
  if ((48 <=? n) && (n <=? 57))%N then Some (n - 48)%N else None.

Fixpoint digits (acc : N) (s : string) : option N :=
  match s with
  | EmptyString => Some acc
  | String c s' => d ← digit c; digits (10 * acc + d)%N s'
  end.

Definition array_index (k : string) : option nat :=
  match k with
  | EmptyString => None
  | String "0" EmptyString => Some 0
  | String "0" _ => None
  | _ => i ← digits 0 k; if (i <? 4294967295)%N then Some (N.to_nat i) else None
  end.

(** The place of a new key among the keys of an object: an array index is
    listed before every larger index and before every key that is not an
    index; any other key is listed last. *)
Definition listed_before (k k' : string) : bool :=
  match array_index k, array_index k' with
  | Some i, Some j => (i <? j)%nat
  | Some _, None => true
  | None, _ => false
  end.

(** [o[k] = v] for an own key: the key keeps its place. *)
Fixpoint update_field (k : string) (v : json) (fs : list (string * json))
  : list (string * json) :=
  match fs with
  | [] => []
  | (k', v') :: fs' =>
      if String.eqb k k' then (k, v) :: fs'
      else (k', v') :: update_field k v fs'
  end.

(** [o[k] = v] for a new key: the key takes its place in the listing. *)
Fixpoint add_field (k : string) (v : json) (fs : list (string * json))
  : list (string * json) :=
  match fs with
  | [] => [(k, v)]
  | (k', v') :: fs' =>
      if listed_before k k' then (k, v) :: fs
      else (k', v') :: add_field k v fs'
  end.

(** [o[k] = v] on own properties. *)
Definition set_field (k : string) (v : json) (fs : list (string * json))
  : list (string * json) :=
  if has_field k fs then update_field k v fs else add_field k v fs.

Definition js_length (n : nat) : json :=
  JNum (PrimFloat.of_uint63 (Uint63.of_Z (Z.of_nat n))).

(** The members every value inherits from [Object.prototype]. *)
Definition object_prototype_members : list string :=
  [ "constructor"; "__defineGetter__"; "__defineSetter__"; "hasOwnProperty";
    "__lookupGetter__"; "__lookupSetter__"; "isPrototypeOf";
    "propertyIsEnumerable"; "toString"; "valueOf"; "__proto__";
    "toLocaleString" ].

(** The further built-in members of each kind of value. *)
Definition builtin_members (v : json) : list string :=
  match v with
  | JArr _ =>
      [ "at"; "concat"; "copyWithin"; "fill"; "find"; "findIndex"; "findLast";
        "findLastIndex"; "lastIndexOf"; "pop"; "push"; "reverse"; "shift";
        "unshift"; "slice"; "sort"; "splice"; "includes"; "indexOf"; "join";
        "keys"; "entries"; "values"; "forEach"; "filter"; "flat"; "flatMap";
        "map"; "every"; "some"; "reduce"; "reduceRight"; "toReversed";
        "toSorted"; "toSpliced"; "with" ]
  | JStr _ =>
      [ "anchor"; "at"; "big"; "blink"; "bold"; "charAt"; "charCodeAt";
        "codePointAt"; "concat"; "endsWith"; "fontcolor"; "fontsize"; "fixed";
        "includes"; "indexOf"; "isWellFormed"; "italics"; "lastIndexOf";
        "link"; "localeCompare"; "match"; "matchAll"; "normalize"; "padEnd";
        "padStart"; "repeat"; "replace"; "replaceAll"; "search"; "slice";
        "small"; "split"; "strike"; "sub"; "substr"; "substring"; "sup";
        "startsWith"; "toWellFormed"; "trim"; "trimStart"; "trimLeft";
        "trimEnd"; "trimRight"; "toLocaleLowerCase"; "toLocaleUpperCase";
        "toLowerCase"; "toUpperCase" ]
  | JNum _ => [ "toExponential"; "toFixed"; "toPrecision" ]
  | JBin Blob _ =>
      [ "size"; "type"; "arrayBuffer"; "bytes"; "slice"; "stream"; "text" ]
  | JBin ArrayBuffer _ =>
      [ "byteLength"; "slice"; "maxByteLength"; "resizable"; "resize";
        "detached"; "transfer"; "transferToFixedLength" ]
  | _ => []
  end.

Definition mem (k : string) (ks : list string) : bool :=
  existsb (String.eqb k) ks.

(** A read that finds no own property: a built-in member when the prototype
    chain has one of that name, [undefined] otherwise. *)
Definition inherited (v : json) (k : string) : completion json :=
  if mem k (builtin_members v) || mem k object_prototype_members
  then Beyond else Normal JUndef.

(** [v[k]] *)
Definition get_prop (v : json) (k : string) : completion json :=
  match v with
  | JUndef | JNull =>
      Throw (TypeError "Cannot read properties of undefined or null")
  | JObj fs =>
      match get_field k fs with
      | Some x => Normal x
      | None => inherited v k
      end
  | JArr xs =>
      match array_index k with
      | Some i => Normal (nth i xs JUndef)
      | None =>
          if String.eqb k "length" then Normal (js_length (length xs))
          else inherited v k
      end
  | JStr s =>
      match array_index k with
      | Some i =>
          Normal (match String.get i s with
                  | Some c => JStr (String c EmptyString)
                  | None => JUndef
                  end)
      | None =>
          if String.eqb k "length" then Normal (js_length (String.length s))
          else inherited v k
      end
  | JBool _ | JNum _ | JBin _ _ => inherited v k
  end.

(** [v?.[k]] *)
Definition get_opt (v : json) (k : string) : completion json :=
  match v with
  | JUndef | JNull => Normal JUndef
  | _ => get_prop v k
  end.

(** [o[k] = v] in strict mode (the routes are ES modules), returning the
    updated [o].  A primitive refuses the assignment with a TypeError.  On an
    array only an index is modelled; writing past the end leaves holes, which
    read as [undefined]. *)
Definition set_prop (o : json) (k : string) (v : json) : completion json :=
  match o with
  | JObj fs =>
      if String.eqb k "__proto__" && negb (has_field k fs)
      then Beyond
      else Normal (JObj (set_field k v fs))
  | JArr xs =>
      match array_index k with
      | Some i =>
          Normal (JArr (if decide (i < length xs) then <[i := v]> xs
                        else xs ++ replicate (i - length xs) JUndef ++ [v]))
      | None => Beyond
      end
  | JBin _ _ => Beyond
  | JUndef | JNull =>
      Throw (TypeError "Cannot set properties of undefined or null")
  | JBool _ | JNum _ | JStr _ =>
      Throw (TypeError "Cannot create property on a primitive value")
  end.

(** ** Path utilities (the same text in both routes) *)

(** [path.reduce((acc, key) => acc?.[key], data)] *)
Definition extractByPath (data : json) (path : list string) : completion json :=
  foldl (fun acc key => a ← acc; get_opt a key) (Normal data) path.

(** The [reduce] of [injectAtPath] followed by the final assignment.  The
    source mutates [acc[part]] in place; here each level is rebuilt and
    written back into its parent on the way out. *)
Fixpoint inject_walk (acc : json) (parts : list string) (lastPart : string)
    (value : json) : completion json :=
  match parts with
  | [] => set_prop acc lastPart value
  | part :: parts' =>
      child ← get_prop acc part;
      if truthy child then
        child' ← inject_walk child parts' lastPart value;
        set_prop acc part child'
      else
        acc' ← set_prop acc part (JObj []);
        child' ← inject_walk (JObj []) parts' lastPart value;
        set_prop acc' part child'
  end.

(** [injectAtPath(obj, path, value)]: [parts.pop()] takes the last segment,
    the others are walked. *)
Definition injectAtPath (obj : json) (path : string) (value : json)
  : completion json :=
  let parts := split "." path in
  let lastPart := List.last parts "" in
  inject_walk obj (removelast parts) lastPart value.

(** ** Content classification (the same text in both routes) *)

Inductive ContentType :=
| Text | Json | Image | Audio | Video | Binary | Stream | Unknown.

Definition ContentType_tag (t : ContentType) : string :=
  match t with
  | Text => "text" | Json => "json" | Image => "image" | Audio => "audio"
  | Video => "video" | Binary => "binary" | Stream => "stream"
  | Unknown => "unknown"
  end.

(** [getContentType(headers)]: the type and the optional format. *)
Definition getContentType (headers : gmap string string)
  : ContentType * option string :=
  let contentType := default "" (headers !! "content-type") in
  if includes contentType "application/json" then (Json, None)
  else if includes contentType "text/" then (Text, None)
  else if includes contentType "image/" then
    (Image, split "/" contentType !! 1)
  else if includes contentType "audio/" then
    (Audio, split "/" contentType !! 1)
  else if includes contentType "video/" then
    (Video, split "/" contentType !! 1)
  else if includes contentType "application/octet-stream" then (Binary, None)
  else (Unknown, None).

(** ** Transform registries *)

(** [data?.choices?.[0]?.message?.content] *)
Definition chat_content (data : json) : completion json :=
  choices ← get_opt data "choices";
  first ← get_opt choices "0";
  message ← get_opt first "message";
  get_opt message "content".

(** [extractOpenAIText] and [identity] read the same in both routes;
    [textToSpeechPayload] differs and is defined with each route. *)
Definition extractOpenAIText (data : json) : completion json :=
  c ← chat_content data; Normal (js_or c data).

Definition identity (data : json) : completion json := Normal data.

(** Calling the member [name] of [Object.prototype] as a method of the
    registry object on one argument. *)
Definition object_prototype_call (name : string) (arg : json)
  : completion json :=
  if String.eqb name "toString" || String.eqb name "toLocaleString" then
    Normal (JStr "[object Object]")
  else if String.eqb name "isPrototypeOf" then Normal (JBool false)
  else if String.eqb name "__proto__" then
    Throw (TypeError "transformFunctions[transformFn] is not a function")
  else if String.eqb name "__defineGetter__"
          || String.eqb name "__defineSetter__" then
    Throw (TypeError "Object.prototype.__defineGetter__: Expecting function")
  else Beyond.

Definition registry := list (string * (json → completion json)).

Fixpoint own_transform (name : string) (fns : registry)
  : option (json → completion json) :=
  match fns with
  | [] => None
  | (n, f) :: fns' => if String.eqb name n then Some f else own_transform name fns'
  end.

(** [transformFunctions[name]]: the registry is an object literal, so a name
    it does not define is looked up in [Object.prototype]; [None] is
    [undefined]. *)
Definition lookup_transform (fns : registry) (name : string)
  : option (json → completion json) :=
  match own_transform name fns with
  | Some f => Some f
  | None =>
      if mem name object_prototype_members
      then Some (object_prototype_call name) else None
  end.

(** [if (transformFn && transformFunctions[transformFn])
       data = transformFunctions[transformFn](data)] *)
Definition apply_transform (fns : registry) (transformFn : option string)
    (data : json) : completion json :=
  match transformFn with
  | Some name =>
      if negb (String.eqb name "") then
        match lookup_transform fns name with
        | Some f => f data
        | None => Normal data
        end
      else Normal data
  | None => Normal data
  end.

(** ** Requests, responses and the network *)

(** [ApiRequestConfig] without the [chainConfig] of the single-hop route.
    An absent [body] is [JUndef]. *)
Record ApiRequestConfig := {
  url : string;
  method : string;
  headers : option (gmap string string);
  body : json;
  params : option (list (string * string));
  responseType : option string
}.

Definition with_body (b : json) (c : ApiRequestConfig) : ApiRequestConfig :=
  {| url := url c; method := method c; headers := headers c; body := b;
     params := params c; responseType := responseType c |}.

Definition with_headers (h : gmap string string) (c : ApiRequestConfig)
  : ApiRequestConfig :=
  {| url := url c; method := method c; headers := Some h; body := body c;
     params := params c; responseType := responseType c |}.

(** What [fetch] is called with.  The query string
    [new URLSearchParams(params).toString()] is kept as the parameters it
    encodes; the body is the value [JSON.stringify] serialises. *)
Record FetchRequest := {
  fetch_url : string;
  fetch_query : option (list (string * string));
  fetch_method : string;
  fetch_headers : gmap string string;
  fetch_body : option json
}.

(** The [Response] a call resolves to: [response_json] is what
    [response.json()] gives, the message of its SyntaxError on a body that
    is not JSON. *)
Record Response := {
  response_status : Z;
  response_statusText : string;
  response_headers : gmap string string;
  response_text : string;
  response_json : string + json
}.

(** [response.ok] *)
Definition ok (r : Response) : bool :=
  (200 <=? response_status r)%Z && (response_status r <=? 299)%Z.

(** The network: the outcome of the [n]-th outbound call of an invocation,
    a transport failure or a response. *)
Definition network := nat → FetchRequest → js_error + Response.

(** The arguments [makeApiCall] passes to [fetch]. *)
Definition fetch_request (config : ApiRequestConfig) : FetchRequest :=
  {| fetch_url := url config;
     fetch_query := params config;
     fetch_method := method config;
     fetch_headers :=
       <["Content-Type" := "application/json"]> (default ∅ (headers config));
     fetch_body := if truthy (body config) then Some (body config) else None |}.

(** The [switch (responseType)] of [makeApiCall]. *)
Definition decode (responseType : string) (r : Response) : completion json :=
  if String.eqb responseType "text" then Normal (JStr (response_text r))
  else if String.eqb responseType "blob" then
    Normal (JBin Blob (response_text r))
  else if String.eqb responseType "arrayBuffer" then
    Normal (JBin ArrayBuffer (response_text r))
  else
    match response_json r with
    | inr v => Normal v
    | inl msg => Throw (Rejected msg)
    end.

(** [ApiResponse] without the [chainedResponse] of the single-hop route. *)
Record ApiResponse := {
  data : json;
  status : Z;
  statusText : string;
  responseHeaders : gmap string string;
  simplifiedContent : json;
  contentType : ContentType;
  contentFormat : option string
}.

(** One call of [makeApiCall]: its argument and its outcome. *)
Definition call : Type := ApiRequestConfig * completion ApiResponse.

Definition succeeded (c : call) : bool := is_normal (snd c).

(** [error.message] *)
Definition message (e : js_error) : string :=
  match e with
  | HttpError st txt details =>
      "HTTP Error: " ++ pretty st ++ " - " ++ txt ++
      match details with
      | Some d => String "010" ("Details: " ++ d)
      | None => ""
      end
  | ParseError rt cause => "Failed to parse " ++ rt ++ " response: " ++ cause
  | Rejected m => m
  | TypeError m => m
  end.

(** [s] when [s] is a non-empty string, for the tests [if (s)] and [!s] on
    an optional string. *)
Definition nonempty (s : option string) : option string :=
  match s with
  | Some x => if String.eqb x "" then None else Some x
  | None => None
  end.

(** ** POST /api/chainFetch *)

Module ChainFetch.

(** An element of [ChainedApiConfig.transforms]. *)
Record ChainLink := {
  extractPath : option (list string);
  injectPath : option string;
  transformFn : option string
}.

Record ChainedApiConfig := {
  steps : list ApiRequestConfig;
  transforms : option (list ChainLink)
}.

Definition textToSpeechPayload (text : json) : completion json :=
  Normal (JObj [ ("model", JStr "tts-1"); ("voice", JStr "alloy");
                 ("input", text) ]).

Definition transformFunctions : registry :=
  [ ("extractOpenAIText", extractOpenAIText);
    ("textToSpeechPayload", textToSpeechPayload);
    ("identity", identity) ].

(** [makeApiCall(config)], as the [n]-th call of the invocation. *)
Definition makeApiCall (fetch : network) (n : nat) (config : ApiRequestConfig)
  : completion ApiResponse :=
  match fetch n (fetch_request config) with
  | inl e => Throw e
  | inr response =>
      if negb (ok response) then
        Throw (HttpError (response_status response)
                 (response_statusText response)
                 (Some (response_text response)))
      else
        let '(type, format) := getContentType (response_headers response) in
        let mode := default "json" (responseType config) in
        match decode mode response with
        | Normal d =>
            Normal {| data := d;
                      status := response_status response;
                      statusText := response_statusText response;
                      responseHeaders := response_headers response;
                      simplifiedContent := d;
                      contentType := type;
                      contentFormat := format |}
        | Throw e => Throw (ParseError mode (message e))
        | Beyond => Beyond
        end
  end.

(** The block guarded by [if (i > 0 && transform && currentData)]:
    extract, transform, inject. *)
Definition apply_link (transform : ChainLink) (currentData : json)
    (step : ApiRequestConfig) : completion ApiRequestConfig :=
  extracted ←
    match extractPath transform with
    | Some path => extractByPath currentData path
    | None => Normal currentData
    end;
  transformed ←
    apply_transform transformFunctions (transformFn transform) extracted;
  match nonempty (injectPath transform) with
  | Some path =>
      b ← injectAtPath (js_or (body step) (JObj [])) path transformed;
      Normal (with_body b step)
  | None => Normal (with_body transformed step)
  end.

(** The step handed to [makeApiCall] at iteration [i]:
    [transform] is [config.transforms?.[i]]. *)
Definition prepare (transforms : option (list ChainLink)) (i : nat)
    (currentData : json) (step : ApiRequestConfig)
  : completion ApiRequestConfig :=
  match transforms ≫= (.!! i) with
  | Some transform =>
      if (0 <? i)%nat && truthy currentData
      then apply_link transform currentData step
      else Normal step
  | None => Normal step
  end.

(** The [for] loop from iteration [i] on, over the steps still to run:
    the calls made, and [responses] or the error that left the loop. *)
Fixpoint run (fetch : network) (transforms : option (list ChainLink))
    (i : nat) (currentData : json) (todo : list ApiRequestConfig)
  : list call * completion (list ApiResponse) :=
  match todo with
  | [] => ([], Normal [])
  | step :: rest =>
      match prepare transforms i currentData step with
      | Normal step' =>
          match makeApiCall fetch i step' with
          | Normal response =>
              let '(calls, out) :=
                run fetch transforms (S i) (data response) rest in
              ((step', Normal response) :: calls, cons response <$> out)
          | Throw e => ([(step', Throw e)], Throw e)
          | Beyond => ([(step', Beyond)], Beyond)
          end
      | Throw e => ([], Throw e)
      | Beyond => ([], Beyond)
      end
  end.

(** [config.steps.map(step => ...)]: the bearer token for the steps whose
    URL mentions the provider. *)
Definition authorize (accessToken : string) (step : ApiRequestConfig)
  : ApiRequestConfig :=
  if includes (url step) "api.openai.com" then
    with_headers
      (<["Authorization" := "Bearer " ++ accessToken]>
         (default ∅ (headers step)))
      step
  else step.

(** What the handler learns from next-auth and from the token store:
    [token?.sub], and [getValidAccessToken(sub)]. *)
Record Session := {
  getToken : option string;
  getValidAccessToken : string → option string
}.

(** The JSON replies of the handler.  The [stack] member of the 500 body
    is left out. *)
Inductive reply :=
| Json200 (responses : list ApiResponse)
| Json401 (error : string)
| Json500 (error : js_error).

Definition POST (session : Session) (fetch : network)
    (config : ChainedApiConfig) : list call * completion reply :=
  match nonempty (getToken session) with
  | None => ([], Normal (Json401 "Authentication required"))
  | Some sub =>
      match nonempty (getValidAccessToken session sub) with
      | None => ([], Normal (Json401 "Failed to get valid access token"))
      | Some accessToken =>
          let steps' := authorize accessToken <$> steps config in
          let '(calls, out) :=
            run fetch (transforms config) 0 JNull steps' in
          (calls,
           match out with
           | Normal responses => Normal (Json200 responses)
           | Throw e => Normal (Json500 e)
           | Beyond => Beyond
           end)
      end
  end.

End ChainFetch.

(** ** POST /api/openFetch *)

Module OpenFetch.

Record ChainConfig := {
  next : option ApiRequestConfig;
  extractPath : option (list string);
  injectPath : option string;
  transformFn : option string
}.

(** The route's [ApiRequestConfig]: the shared members and [chainConfig].
    The [chainConfig] of [next] itself is never read and is left out. *)
Record ChainedRequest := {
  request : ApiRequestConfig;
  chainConfig : option ChainConfig
}.

(** The route's [ApiResponse]: the shared members and [chainedResponse]. *)
Record ChainedApiResponse := {
  first : ApiResponse;
  chainedResponse : option ApiResponse
}.

Definition textToSpeechPayload (text : json) : completion json :=
  Normal (JObj [ ("input", JObj [ ("text", text) ]);
                 ("voice", JStr "alloy"); ("model", JStr "tts-1") ]).

Definition transformFunctions : registry :=
  [ ("extractOpenAIText", extractOpenAIText);
    ("textToSpeechPayload", textToSpeechPayload);
    ("identity", identity) ].

(** [extractMainContent(data, contentType)] *)
Definition extractMainContent (d : json) (type : ContentType)
  : completion json :=
  match type with
  | Json =>
      chat ← chat_content d;
      if truthy chat then Normal chat
      else
        content ← get_opt d "content";
        if truthy content then Normal content
        else
          wrapped ← get_opt d "data";
          if truthy wrapped then Normal wrapped
          else
            match d with
            | JArr _ => Normal d
            | _ => Normal d
            end
  | Text => Normal d
  | Image | Audio | Video | Binary =>
      size ← get_prop d "length";
      format ← get_prop d "format";
      Normal (JObj [ ("type", JStr (ContentType_tag type)); ("data", d);
                     ("size", size); ("format", format) ])
  | Stream => Normal (JObj [ ("type", JStr "stream"); ("stream", d) ])
  | Unknown => Normal d
  end.

(** [makeApiCall(config)], as the [n]-th call of the invocation. *)
Definition makeApiCall (fetch : network) (n : nat) (config : ApiRequestConfig)
  : completion ApiResponse :=
  match fetch n (fetch_request config) with
  | inl e => Throw e
  | inr response =>
      if negb (ok response) then
        Throw (HttpError (response_status response)
                 (response_statusText response) None)
      else
        let '(type, format) := getContentType (response_headers response) in
        d ← decode (default "json" (responseType config)) response;
        simplified ← extractMainContent d type;
        Normal {| data := d;
                  status := response_status response;
                  statusText := response_statusText response;
                  responseHeaders := response_headers response;
                  simplifiedContent := simplified;
                  contentType := type;
                  contentFormat := format |}
  end.

(** The request of the chained call, built from the first response. *)
Definition next_config (link : ChainConfig) (response : ApiResponse)
    (nxt : ApiRequestConfig) : completion ApiRequestConfig :=
  chainedData ←
    match extractPath link with
    | Some path => extractByPath (data response) path
    | None => Normal (simplifiedContent response)
    end;
  chainedData ←
    apply_transform transformFunctions
      (Some (default "identity" (transformFn link))) chainedData;
  match nonempty (injectPath link) with
  | Some path =>
      b ← injectAtPath (js_or (body nxt) (JObj [])) path chainedData;
      Normal (with_body b nxt)
  | None => Normal (with_body chainedData nxt)
  end.

Inductive reply :=
| Json200 (response : ChainedApiResponse)
| Json500 (error : js_error).

Definition caught (c : completion ChainedApiResponse) : completion reply :=
  match c with
  | Normal r => Normal (Json200 r)
  | Throw e => Normal (Json500 e)
  | Beyond => Beyond
  end.

Definition POST (fetch : network) (config : ChainedRequest)
  : list call * completion reply :=
  let made := makeApiCall fetch 0 (request config) in
  match made with
  | Normal response =>
      match chainConfig config ≫= (λ link, pair link <$> next link) with
      | Some (link, nxt) =>
          match next_config link response nxt with
          | Normal nextConfig =>
              let chained := makeApiCall fetch 1 nextConfig in
              ([ (request config, made); (nextConfig, chained) ],
               caught (r ← chained;
                       Normal {| first := response;
                                 chainedResponse := Some r |}))
          | Throw e => ([ (request config, made) ], Normal (Json500 e))
          | Beyond => ([ (request config, made) ], Beyond)
          end
      | None =>
          ([ (request config, made) ],
           Normal (Json200 {| first := response; chainedResponse := None |}))
      end
  | Throw e => ([ (request config, made) ], Normal (Json500 e))
  | Beyond => ([ (request config, made) ], Beyond)
  end.

End OpenFetch.

(** ** The access token of the chained route ([src/app/utils/auth.ts]) *)

Module Auth.

(** [TokenInfo]: the three columns of [user_auth] the module reads, typed as
    the table declares them (two texts and a number of seconds). *)
Record TokenInfo := {
  access_token : string;
  refresh_token : string;
  expires_at : float
}.

(** The [{ data, error }] of a [select(...).eq('user_id', ...).single()]:
    an error, or the data (which may be [null]). *)
Inductive selected (A : Type) : Type :=
| SelectError
| SelectData (row : option A).
Arguments SelectError {A}.
Arguments SelectData {A} row.

(** The body of a 200 answer of Google's token endpoint, as far as
    [refreshGoogleToken] reads it. *)
Record GoogleTokens := {
  google_access_token : string;
  google_refresh_token : option string;
  expires_in : float
}.

(** What the [fetch] of [refreshGoogleToken] comes to: the promise rejects,
    or there is a response with its [ok] flag and the body [response.json()]
    gives, if it gives one. *)
Inductive google_outcome :=
| GoogleRejected
| GoogleResponse (ok : bool) (body : option GoogleTokens).

(** The world around an invocation of [getValidAccessToken]: the answers of
    the three Supabase requests and of Google, and the successive readings
    of [Math.floor(Date.now() / 1000)]. *)
Record World := {
  select_tokens : string → selected TokenInfo;
  select_provider : string → selected string;
  upsert : string → TokenInfo → string → bool;
  google : string → google_outcome;
  clock : nat → float
}.

(** The requests an invocation sends.  The [updated_at] stamp of the
    upserted row is left out. *)
Inductive event :=
| ReadTokens (userId : string)
| RefreshRequest (refreshToken : string)
| ReadProvider (userId : string)
| Upsert (userId : string) (tokens : TokenInfo) (provider : string).

(** The log lines [new Date(seconds * 1000).toISOString()]: the call
    throws a RangeError (one of the engine's own errors) when the time is
    not a date, that is when the number of milliseconds is [NaN], infinite
    or more than 8.64e15 away from the epoch. *)
Definition valid_time (seconds : float) : bool :=
  (abs (seconds * 1000) <=? 8640000000000000)%float.

Definition invalid_time : js_error := TypeError "Invalid time value".

(** A log line of a time, after the requests [sent]: the run goes on with
    [rest], or stops there with the RangeError. *)
Definition logged {A} (seconds : float) (sent : list event)
    (rest : list event * completion A) : list event * completion A :=
  if valid_time seconds then rest else (sent, Throw invalid_time).

(** [getStoredTokens(userId)]: the row, [null] when the read fails or finds
    nothing; the log line of the expiry comes after the read. *)
Definition getStoredTokens (w : World) (userId : string)
  : list event * completion (option TokenInfo) :=
  match select_tokens w userId with
  | SelectError => ([ ReadTokens userId ], Normal None)
  | SelectData None => ([ ReadTokens userId ], Normal None)
  | SelectData (Some data) =>
      logged (expires_at data) [ ReadTokens userId ]
        ([ ReadTokens userId ], Normal (Some data))
  end.

(** [refreshGoogleToken(refreshToken)]: every failure inside the [try],
    the RangeError of the log line included, is caught and gives [null]. *)
Definition refreshGoogleToken (w : World) (refreshToken : string)
  : option TokenInfo :=
  match google w refreshToken with
  | GoogleRejected => None
  | GoogleResponse false _ => None
  | GoogleResponse true None => None
  | GoogleResponse true (Some d) =>
      let expires_at := (clock w 1 + expires_in d)%float in
      if valid_time expires_at then
        Some {| access_token := google_access_token d;
                refresh_token :=
                  default refreshToken (nonempty (google_refresh_token d));
                expires_at := expires_at |}
      else None
  end.

(** [updateStoredTokens(userId, tokens)]: the log line of the new expiry
    comes first. *)
Definition updateStoredTokens (w : World) (userId : string) (tokens : TokenInfo)
  : list event * completion bool :=
  logged (expires_at tokens) []
    match select_provider w userId with
    | SelectError => ([ ReadProvider userId ], Normal false)
    | SelectData existingAuth =>
        match nonempty existingAuth with
        | None => ([ ReadProvider userId ], Normal false)
        | Some provider =>
            ([ ReadProvider userId; Upsert userId tokens provider ],
             Normal (upsert w userId tokens provider))
        end
    end.

(** [tokens.expires_at - 300 < now] *)
Definition isExpiringSoon (tokens : TokenInfo) (now : float) : bool :=
  (expires_at tokens - 300 <? now)%float.

(** [getValidAccessToken(userId)]: the requests sent, and the token,
    [null], or the error thrown.  The stored expiry and the current time are
    logged before the refresh is decided. *)
Definition getValidAccessToken (w : World) (userId : string)
  : list event * completion (option string) :=
  match getStoredTokens w userId with
  | (sent, Normal None) => (sent, Normal None)
  | (sent, Normal (Some tokens)) =>
      let now := clock w 0 in
      logged (expires_at tokens) sent
        (logged now sent
           (if isExpiringSoon tokens now
               && negb (String.eqb (refresh_token tokens) "")
            then
              match refreshGoogleToken w (refresh_token tokens) with
              | Some newTokens =>
                  let '(events, updated) :=
                    updateStoredTokens w userId newTokens in
                  ((sent ++ RefreshRequest (refresh_token tokens) :: events)%list,
                   updated ← updated;
                   Normal (if updated : bool
                           then Some (access_token newTokens) else None))
              | None =>
                  ((sent ++ [ RefreshRequest (refresh_token tokens) ])%list,
                   Normal (Some (access_token tokens)))
              end
            else (sent, Normal (Some (access_token tokens)))))
  | (sent, Throw e) => (sent, Throw e)
  | (sent, Beyond) => (sent, Beyond)
  end.

(** The handler of the chained route with this module behind it: the
    subject of the next-auth token, and [getValidAccessToken] in a world.
    An error thrown by [getValidAccessToken] is caught by the handler, which
    replies 500. *)
Definition POST (w : World) (sub : option string) (fetch : network)
    (config : ChainFetch.ChainedApiConfig)
  : list call * completion ChainFetch.reply :=
  match nonempty sub with
  | None =>
      ChainFetch.POST
        {| ChainFetch.getToken := sub;
           ChainFetch.getValidAccessToken := λ _, None |} fetch config
  | Some userId =>
      match snd (getValidAccessToken w userId) with
      | Normal accessToken =>
          ChainFetch.POST
            {| ChainFetch.getToken := sub;
               ChainFetch.getValidAccessToken := λ _, accessToken |}
            fetch config
      | Throw e => ([], Normal (ChainFetch.Json500 e))
      | Beyond => ([], Beyond)
      end
  end.

End Auth.

(** * Definitions for the statements

    What the statements below need beside the code: the notions the
    specification uses and the code does not define, and the concrete
    scenarios of its section 8. *)

(** ** Strings *)

(** [c] occurs in [s]. *)
Fixpoint occurs (c : ascii) (s : string) : bool :=
  match s with
  | EmptyString => false
  | String c' s' => Ascii.eqb c' c || occurs c s'
  end.

(** The text before the first [sep]. *)
Fixpoint before (sep : ascii) (s : string) : string :=
  match s with
  | EmptyString => EmptyString
  | String c s' =>
      if Ascii.eqb c sep then EmptyString else String c (before sep s')
  end.

(** The text after the first [sep]. *)
Fixpoint after (sep : ascii) (s : string) : string :=
  match s with
  | EmptyString => EmptyString
  | String c s' => if Ascii.eqb c sep then s' else after sep s'
  end.

(** ** The classifier of §4.1 *)

(** The subtype that a rule [image/*] of §4.1 reports as format (§3 gives
    [png] and [mp3]): the token that follows the pattern where it matches in
    the value.  A token ends at a parameter separator, at a blank or at
    another ['/']. *)
Definition ends_token (c : ascii) : bool :=
  Ascii.eqb c ";" || Ascii.eqb c " " || Ascii.eqb c "009" || Ascii.eqb c "/".

Fixpoint token (s : string) : string :=
  match s with
  | EmptyString => EmptyString
  | String c s' => if ends_token c then EmptyString else String c (token s')
  end.

(** What follows [pattern] when [s] starts with it. *)
Fixpoint strip (pattern s : string) : option string :=
  match pattern, s with
  | EmptyString, _ => Some s
  | String a pattern', String b s' =>
      if Ascii.eqb a b then strip pattern' s' else None
  | String _ _, EmptyString => None
  end.

(** What follows the first occurrence of [pattern] in [s]. *)
Fixpoint after_pattern (pattern s : string) : string :=
  match strip pattern s with
  | Some rest => rest
  | None =>
      match s with
      | EmptyString => EmptyString
      | String _ s' => after_pattern pattern s'
      end
  end.

Definition subtype (pattern value : string) : string :=
  token (after_pattern pattern value).

(** The classifier as §4.1 words it: an ordered list of substring tests, the
    first that matches decides; a rule marked [true] also reports the
    subtype as format. *)
Definition classify_rules : list (string * ContentType * bool) :=
  [ ("application/json", Json, false);
    ("text/", Text, false);
    ("image/", Image, true);
    ("audio/", Audio, true);
    ("video/", Video, true);
    ("application/octet-stream", Binary, false) ].

Fixpoint first_match (value : string)
    (rules : list (string * ContentType * bool))
  : ContentType * option string :=
  match rules with
  | [] => (Unknown, None)
  | (pattern, kind, with_format) :: rules' =>
      if includes value pattern then
        (kind, if with_format then Some (subtype pattern value) else None)
      else first_match value rules'
  end.

Definition classify_spec (headers : gmap string string)
  : ContentType * option string :=
  first_match (default "" (headers !! "content-type")) classify_rules.

(** A header value that is one media type and nothing else: no parameter
    ([';']), no blank, and a single ['/']. *)
Definition plain (value : string) : bool :=
  negb (occurs ";" value || occurs " " value || occurs "009" value
        || occurs "/" (after "/" value)).

(** ** Data keys *)

(** A key that names no built-in member is read as data: the read returns
    normally, whatever the value. *)
Definition data_key (k : string) : bool :=
  negb (mem k object_prototype_members)
  && negb (mem k (builtin_members (JArr [])))
  && negb (mem k (builtin_members (JStr "")))
  && negb (mem k (builtin_members (JNum 0)))
  && negb (mem k (builtin_members (JBin Blob "")))
  && negb (mem k (builtin_members (JBin ArrayBuffer ""))).

(** ** Paths *)


(** The paths on which [injectAtPath] stays inside mappings: [m] is a
    mapping, and each intermediate key holds a mapping to walk into, or a
    falsy value, or nothing (and then does not name a member of
    [Object.prototype]); the last key is not the [__proto__] accessor. *)
Fixpoint walkable (m : json) (parts : list string) (lastPart : string)
    {struct parts} : bool :=
  match m with
  | JObj fs =>
      match parts with
      | [] => negb (String.eqb lastPart "__proto__") || has_field lastPart fs
      | part :: parts' =>
          match get_field part fs with
          | Some child =>
              if truthy child then walkable child parts' lastPart
              else walkable (JObj []) parts' lastPart
          | None =>
              negb (mem part object_prototype_members)
              && walkable (JObj []) parts' lastPart
          end
      end
  | _ => false
  end.



(** The listing of the keys of an object after a new key was added. *)
Fixpoint add_key (k : string) (ks : list string) : list string :=
  match ks with
  | [] => [ k ]
  | k' :: ks' => if listed_before k k' then k :: ks else k' :: add_key k ks'
  end.

(** The chain of fresh mappings that leads to [value] along a path. *)
Fixpoint nest (parts : list string) (lastPart : string) (value : json) : json :=
  match parts with
  | [] => JObj [ (lastPart, value) ]
  | part :: parts' => JObj [ (part, nest parts' lastPart value) ]
  end.

(** ** Target hosts *)

(** The target host of a URL, as §6 speaks of it: the authority that
    follows ["://"], without user information and port. *)
Fixpoint after_scheme (s : string) : option string :=
  match s with
  | EmptyString => None
  | String _ s' =>
      if String.prefix "://" s then Some (String.substring 3 (String.length s) s)
      else after_scheme s'
  end.

Fixpoint authority (s : string) : string :=
  match s with
  | EmptyString => EmptyString
  | String c s' =>
      if Ascii.eqb c "/" || Ascii.eqb c "?" || Ascii.eqb c "#"
      then EmptyString else String c (authority s')
  end.

Definition spec_target_host (u : string) : string :=
  let a := authority (default u (after_scheme u)) in
  before ":" (if occurs "@" a then after "@" a else a).

(** ** The log of the loop *)

(** The value of [currentData] when iteration [k] of the loop starts: the
    initial value, then the body of the previous response. *)
Definition data_before (initial : json) (calls : list call) (k : nat) : json :=
  match k with
  | 0 => initial
  | S k' =>
      match calls !! k' with
      | Some (_, Normal r) => data r
      | _ => JNull
      end
  end.

(** The responses of a reply of the chained route. *)
Definition responses_of (out : completion ChainFetch.reply) : list ApiResponse :=
  match out with
  | Normal (ChainFetch.Json200 rs) => rs
  | _ => []
  end.

(** ** Walks *)

(** The primitive values: an assignment to one of their properties is
    refused. *)
Definition is_primitive (v : json) : bool :=
  match v with
  | JBool _ | JNum _ | JStr _ => true
  | _ => false
  end.

(** The node in which the walk of [injectAtPath] goes on below the key
    [part] of a mapping: the truthy value found there, a fresh mapping
    otherwise. *)
Definition walk_child (fs : list (string * json)) (part : string) : json :=
  match get_field part fs with
  | Some child => if truthy child then child else JObj []
  | None => JObj []
  end.

(** The first segment of a dot-separated path. *)
Definition first_key (p : string) : string := List.hd "" (split "." p).

(** A mapping, as opposed to an array, a primitive, [null], [undefined] or
    a binary container. *)
Definition is_mapping (v : json) : bool :=
  match v with
  | JObj _ => true
  | _ => false
  end.

(** The descriptor [extractMainContent] builds for the payload kinds. *)
Definition descriptor (type : ContentType) (d size format : json) : json :=
  JObj [ ("type", JStr (ContentType_tag type)); ("data", d); ("size", size);
         ("format", format) ].

(** ** Requests *)

(** A request in another [responseType]. *)
Definition with_responseType (mode : option string) (c : ApiRequestConfig)
  : ApiRequestConfig :=
  {| url := url c; method := method c; headers := headers c; body := body c;
     params := params c; responseType := mode |}.

(** The [ApiResponse] [makeApiCall] returns for an upstream response, given
    the decoded body and the simplified content. *)
Definition response_of (r : Response) (d simplified : json) : ApiResponse :=
  {| data := d;
     status := response_status r;
     statusText := response_statusText r;
     responseHeaders := response_headers r;
     simplifiedContent := simplified;
     contentType := fst (getContentType (response_headers r));
     contentFormat := snd (getContentType (response_headers r)) |}.

(** The modes of [responseType] that hand the body over undecoded. *)
Definition raw_modes : list string := [ "text"; "blob"; "arrayBuffer" ].

(** The kinds for which [extractMainContent] builds a descriptor, reading
    two members of the body. *)
Definition payload_kind (type : ContentType) : bool :=
  match type with
  | Image | Audio | Video | Binary => true
  | _ => false
  end.

(** [null] and [undefined], the values no member can be read of. *)
Definition nullish (v : json) : bool :=
  match v with
  | JUndef | JNull => true
  | _ => false
  end.

(** ** Scenarios *)

Definition signed_in : ChainFetch.Session :=
  {| ChainFetch.getToken := Some "user-1";
     ChainFetch.getValidAccessToken := λ _, Some "token-1" |}.

(** A 200 response that carries JSON: its text and the value it parses to. *)
Definition json_response (text : string) (v : json) : Response :=
  {| response_status := 200;
     response_statusText := "OK";
     response_headers := {[ "content-type" := "application/json" ]};
     response_text := text;
     response_json := inr v |}.

(** A 500 response of an upstream service. *)
Definition error_response : Response :=
  {| response_status := 500;
     response_statusText := "Internal Server Error";
     response_headers := {[ "content-type" := "text/plain" ]};
     response_text := "boom";
     response_json := inl "Unexpected token b in JSON at position 0" |}.

Definition dq : string := String "034" EmptyString.

(** [{"data":{"id":"x1"}}] *)
Definition item_body : json := JObj [ ("data", JObj [ ("id", JStr "x1") ]) ].
Definition item_text : string :=
  "{" ++ dq ++ "data" ++ dq ++ ":{" ++ dq ++ "id" ++ dq ++ ":" ++ dq ++ "x1"
  ++ dq ++ "}}".

(** [{"choices":[{"message":{"content":"hi"}}]}] *)
Definition chat_body : json :=
  JObj [ ("choices",
          JArr [ JObj [ ("message", JObj [ ("content", JStr "hi") ]) ] ]) ].
Definition chat_text : string :=
  "{" ++ dq ++ "choices" ++ dq ++ ":[{" ++ dq ++ "message" ++ dq ++ ":{" ++ dq
  ++ "content" ++ dq ++ ":" ++ dq ++ "hi" ++ dq ++ "}}]}".

(** [{"ok":true}] *)
Definition done_body : json := JObj [ ("ok", JBool true) ].
Definition done_text : string := "{" ++ dq ++ "ok" ++ dq ++ ":true}".

(** The [ApiResponse] built from a JSON 200 response. *)
Definition json_result (v : json) : ApiResponse :=
  {| data := v; status := 200; statusText := "OK";
     responseHeaders := {[ "content-type" := "application/json" ]};
     simplifiedContent := v; contentType := Json; contentFormat := None |}.

(** A network whose first call answers [first] and whose later calls
    answer [later]. *)
Definition answers (first later : Response) : network :=
  λ n _, match n with 0 => inr first | S _ => inr later end.

Definition step_A : ApiRequestConfig :=
  {| url := "https://a.example/item"; method := "GET"; headers := None;
     body := JUndef; params := None; responseType := None |}.

Definition step_B : ApiRequestConfig :=
  {| url := "https://b.example/related"; method := "POST"; headers := None;
     body := JUndef; params := None; responseType := None |}.

(** A step with a declared body. *)
Definition step_C : ApiRequestConfig :=
  {| url := "https://c.example/search"; method := "POST"; headers := None;
     body := JObj [ ("q", JStr "keep") ]; params := None;
     responseType := None |}.

(** The link of §8.9. *)
Definition link_id : ChainFetch.ChainLink :=
  {| ChainFetch.extractPath := Some [ "data"; "id" ];
     ChainFetch.injectPath := Some "relatedId";
     ChainFetch.transformFn := None |}.

Definition no_link : ChainFetch.ChainLink :=
  {| ChainFetch.extractPath := None; ChainFetch.injectPath := None;
     ChainFetch.transformFn := None |}.


(** A link that only names a transform. *)
Definition link_named (name : string) : ChainFetch.ChainLink :=
  {| ChainFetch.extractPath := None; ChainFetch.injectPath := None;
     ChainFetch.transformFn := Some name |}.

(** The request of §8.10, a POST with a follow-up, for a transform name. *)
Definition hop_named (name : string) : OpenFetch.ChainedRequest :=
  {| OpenFetch.request :=
       {| url := "https://a.example/item"; method := "POST"; headers := None;
          body := JUndef; params := None; responseType := None |};
     OpenFetch.chainConfig :=
       Some {| OpenFetch.next := Some step_B;
               OpenFetch.extractPath := None;
               OpenFetch.injectPath := None;
               OpenFetch.transformFn := Some name |} |}.

Definition hop_request : OpenFetch.ChainedRequest := hop_named "identity".

(** A row of [user_auth] whose token expires at second 1000, and one whose
    expiry is beyond the last date. *)
Definition stored_row : Auth.TokenInfo :=
  {| Auth.access_token := "old-token"; Auth.refresh_token := "refresh-1";
     Auth.expires_at := 1000%float |}.

Definition undated_row : Auth.TokenInfo :=
  {| Auth.access_token := "old-token"; Auth.refresh_token := "refresh-1";
     Auth.expires_at := 10000000000000000%float |}.

(** A world that holds [row] for every user: the clock reads [now], Google
    answers [answer], and the upsert succeeds or not. *)
Definition world_of (row : Auth.TokenInfo) (now : float)
    (answer : Auth.google_outcome) (written : bool) : Auth.World :=
  {| Auth.select_tokens := λ _, Auth.SelectData (Some row);
     Auth.select_provider := λ _, Auth.SelectData (Some "google");
     Auth.upsert := λ _ _ _, written;
     Auth.google := λ _, answer;
     Auth.clock := λ _, now |}.

Definition world (now : float) (answer : Auth.google_outcome) (written : bool)
  : Auth.World := world_of stored_row now answer written.

(** Google's answer to a refresh with an [expires_in] that leads beyond the
    last date. *)
Definition refreshed_undated : Auth.google_outcome :=
  Auth.GoogleResponse true
    (Some {| Auth.google_access_token := "new-token";
             Auth.google_refresh_token := None;
             Auth.expires_in := 10000000000000000%float |}).

(** Google's answer to a refresh: a new access token for an hour, and no
    new refresh token. *)
Definition refreshed : Auth.google_outcome :=
  Auth.GoogleResponse true
    (Some {| Auth.google_access_token := "new-token";
             Auth.google_refresh_token := None;
             Auth.expires_in := 3600%float |}).

(** * Properties *)

(** ** Strings *)

Lemma split_nonempty sep s : split sep s ≠ [].
Proof.
  destruct s as [|c s]; simpl; [done|].
  destruct (Ascii.eqb c sep); [done|]. by destruct (split sep s).
Qed.

Lemma split_first sep s : split sep s !! 0 = Some (before sep s).
Proof.
  induction s as [|c s IH]; simpl; [done|].
  destruct (Ascii.eqb c sep); [done|].
  destruct (split sep s) as [|seg segs]; simpl in *; [done|]. congruence.
Qed.

Lemma split_second sep s :
  occurs sep s = true → split sep s !! 1 = Some (before sep (after sep s)).
Proof.
  induction s as [|c s IH]; simpl; [done|].
  destruct (Ascii.eqb c sep); simpl.
  - intros _. apply split_first.
  - intros Hocc. specialize (IH Hocc).
    destruct (split sep s) as [|seg segs]; simpl in *; done.
Qed.

Lemma prefix_occurs c p s :
  String.prefix p s = true → occurs c p = true → occurs c s = true.
Proof.
  revert s. induction p as [|a p IH]; intros s; [done|].
  destruct s as [|b s]; simpl; [done|].
  destruct (ascii_dec a b) as [->|]; [|done].
  intros Hp. destruct (Ascii.eqb b c); simpl; [done|]. by apply IH.
Qed.

Lemma includes_occurs c s p :
  includes s p = true → occurs c p = true → occurs c s = true.
Proof.
  intros Hin Hc. induction s as [|a s IH].
  - cbn [includes] in Hin. rewrite orb_false_r in Hin.
    exact (prefix_occurs c p _ Hin Hc).
  - cbn [includes] in Hin. apply orb_true_iff in Hin as [Hp|Hin].
    + exact (prefix_occurs c p _ Hp Hc).
    + cbn [occurs]. rewrite (IH Hin). apply orb_true_r.
Qed.

(** ** The content classifier *)

Lemma before_no_sep sep s : occurs sep s = false → before sep s = s.
Proof.
  induction s as [|c s IH]; simpl; [done|].
  destruct (Ascii.eqb c sep); simpl; [done|]. intros Hs. by rewrite IH.
Qed.

Lemma occurs_after c sep s : occurs c s = false → occurs c (after sep s) = false.
Proof.
  induction s as [|a s IH]; simpl; [done|].
  intros [_ H]%orb_false_iff. destruct (Ascii.eqb a sep); [done|]. by apply IH.
Qed.

(** Without a parameter separator or a blank, the token is the text up to
    the next ['/']. *)
Lemma token_before s :
  occurs ";" s = false → occurs " " s = false → occurs "009" s = false →
  token s = before "/" s.
Proof.
  induction s as [|a s IH]; simpl; [done|].
  intros [Ha Hs]%orb_false_iff [Hb Hs']%orb_false_iff [Hc Hs'']%orb_false_iff.
  unfold ends_token. rewrite Ha, Hb, Hc. simpl.
  destruct (Ascii.eqb a "/"); [done|]. by rewrite IH.
Qed.

Lemma strip_prefix p : ∀ s, strip p s = None ↔ String.prefix p s = false.
Proof.
  induction p as [|a p IH]; intros [|b s]; simpl; try done.
  destruct (ascii_dec a b) as [->|Hne].
  - rewrite Ascii.eqb_refl. apply IH.
  - by apply Ascii.eqb_neq in Hne as ->.
Qed.

(** After a pattern whose only ['/'] is its last character comes what
    comes after the first ['/']. *)
Lemma strip_after p : ∀ s rest,
  strip p s = Some rest →
  occurs "/" p = true → after "/" p = "" →
  after "/" s = rest.
Proof.
  induction p as [|a p IH]; intros [|b s] rest; simpl; try done.
  destruct (Ascii.eqb_spec a b) as [->|]; [|done].
  destruct (Ascii.eqb b "/"); simpl.
  - intros Hs _ ->. simpl in Hs. congruence.
  - apply IH.
Qed.

Lemma after_pattern_single p s :
  occurs "/" p = true → after "/" p = "" →
  includes s p = true →
  occurs "/" (after "/" s) = false →
  after_pattern p s = after "/" s.
Proof.
  intros Hp Hlast. induction s as [|c s IH].
  - cbn [includes after_pattern]. rewrite orb_false_r.
    destruct (strip p "") as [rest|] eqn:Hs.
    + intros _ _. symmetry. by eapply strip_after.
    + apply strip_prefix in Hs. congruence.
  - cbn [includes after_pattern].
    destruct (strip p (String c s)) as [rest|] eqn:Hs.
    + intros _ _. symmetry. by eapply strip_after.
    + apply strip_prefix in Hs. rewrite Hs. cbn [orb after].
      intros Hin. destruct (Ascii.eqb c "/").
      * intros Hocc. by rewrite (includes_occurs _ _ _ Hin Hp) in Hocc.
      * by apply IH.
Qed.

(** C6, as the code has it.  [getContentType] is a total function of the
    header mapping.  Its kind is the one the ordered substring tests of §4.1
    select on the [content-type] value, first match winning, and is one of
    json, text, image, audio, video, binary and unknown.  A format is
    reported for image, audio and video and for no other kind, and it is
    the text between the first and the second ['/'] of the whole value
    ([contentType.split('/')[1]]): the subtype when the value is one media
    type without parameters.  ['application/json; charset=utf-8'] is json,
    ['image/png'] is image with format ['png'] (not binary), a missing
    header is unknown. *)
Theorem getContentType_first_match :
  (∀ headers : gmap string string,
     fst (getContentType headers) = fst (classify_spec headers)
     ∧ fst (getContentType headers)
         ∈ [ Json; Text; Image; Audio; Video; Binary; Unknown ]
     ∧ (is_Some (snd (getContentType headers))
        ↔ fst (getContentType headers) ∈ [ Image; Audio; Video ])
     ∧ (∀ format,
          snd (getContentType headers) = Some format →
          format
          = before "/" (after "/" (default "" (headers !! "content-type"))))
     ∧ (plain (default "" (headers !! "content-type")) = true →
        getContentType headers = classify_spec headers))
  ∧ getContentType {[ "content-type" := "application/json; charset=utf-8" ]}
    = (Json, None)
  ∧ getContentType {[ "content-type" := "image/png" ]} = (Image, Some "png")
  ∧ getContentType ∅ = (Unknown, None).
Proof.
  split; [|by vm_compute].
  intros headers. unfold getContentType, classify_spec, plain.
  generalize (default "" (headers !! "content-type")). intros v. simpl.
  assert (Hsub : ∀ p,
            occurs "/" p = true → after "/" p = "" →
            includes v p = true →
            negb (occurs ";" v || occurs " " v || occurs "009" v
                  || occurs "/" (after "/" v)) = true →
            split "/" v !! 1 = Some (subtype p v)).
  { intros p Hp Hlast Hin. rewrite negb_true_iff, !orb_false_iff.
    intros [[[H1 H2] H3] H4].
    rewrite split_second by (by eapply includes_occurs). f_equal.
    unfold subtype. rewrite (after_pattern_single _ _ Hp Hlast Hin H4).
    rewrite token_before by (by apply occurs_after).
    by rewrite before_no_sep. }
  repeat match goal with
  | |- context [includes v ?p] =>
      let H := fresh "H" in destruct (includes v p) eqn:H; [|clear H]
  end; simpl;
    (split; [reflexivity|]);
    (split; [rewrite !elem_of_cons, !elem_of_nil; intuition congruence|]);
    (split; [rewrite is_Some_alt, !elem_of_cons, !elem_of_nil;
             try rewrite split_second
               by (eapply includes_occurs; [eassumption|reflexivity]);
             intuition congruence|]);
    (split; [intros format;
             try rewrite split_second
               by (eapply includes_occurs; [eassumption|reflexivity]);
             congruence|]);
    try reflexivity;
    (intros Hplain;
     match goal with
     | |- context [subtype ?p v] =>
         rewrite (Hsub p eq_refl eq_refl ltac:(assumption) Hplain)
     end; reflexivity).
Qed.

Lemma getContentType_first_match_witness :
  plain (default "" (({[ "content-type" := "audio/mpeg" ]} : gmap string string)
                       !! "content-type")) = true
  ∧ getContentType {[ "content-type" := "audio/mpeg" ]} = (Audio, Some "mpeg")
  ∧ getContentType {[ "content-type" := "audio/mpeg" ]}
    = classify_spec {[ "content-type" := "audio/mpeg" ]}.
Proof.
  split; [reflexivity|]. split; [reflexivity|].
  apply (proj1 getContentType_first_match {[ "content-type" := "audio/mpeg" ]}).
  reflexivity.
Defined.

(** C6 as the specification words it fails: with a parameter the format is
    not the subtype, and when the media type that matched is not at the
    start of the value the format is taken from another part of it. *)
Lemma format_is_not_subtype :
  getContentType {[ "content-type" := "audio/ogg; codecs=opus" ]}
  = (Audio, Some "ogg; codecs=opus")
  ∧ classify_spec {[ "content-type" := "audio/ogg; codecs=opus" ]}
    = (Audio, Some "ogg")
  ∧ getContentType {[ "content-type" := "multipart/related; type=image/png" ]}
    = (Image, Some "related; type=image")
  ∧ classify_spec {[ "content-type" := "multipart/related; type=image/png" ]}
    = (Image, Some "png").
Proof. by vm_compute. Qed.

Lemma inherited_data_key v k : data_key k = true → inherited v k = Normal JUndef.
Proof.
  unfold data_key, inherited. rewrite !andb_true_iff, !negb_true_iff.
  intros [[[[[Ho Ha] Hs] Hn] Hb] Hab]. rewrite Ho, orb_false_r.
  destruct v as [| | |x|s|xs|fs|[] bs]; try done.
  - change (builtin_members (JNum x)) with (builtin_members (JNum 0)).
    by rewrite Hn.
  - change (builtin_members (JStr s)) with (builtin_members (JStr "")).
    by rewrite Hs.
  - change (builtin_members (JArr xs)) with (builtin_members (JArr [])).
    by rewrite Ha.
  - change (builtin_members (JBin Blob bs))
      with (builtin_members (JBin Blob "")).
    by rewrite Hb.
  - change (builtin_members (JBin ArrayBuffer bs))
      with (builtin_members (JBin ArrayBuffer "")).
    by rewrite Hab.
Qed.

Lemma get_opt_data_key v k :
  data_key k = true → ∃ x, get_opt v k = Normal x.
Proof.
  intros Hk. destruct v; simpl; repeat case_match;
    rewrite ?inherited_data_key by done; eauto.
Qed.

Lemma chat_content_normal d : ∃ x, chat_content d = Normal x.
Proof.
  unfold chat_content.
  destruct (get_opt_data_key d "choices") as [a ->]; [done|]. simpl.
  destruct (get_opt_data_key a "0") as [b ->]; [done|]. simpl.
  destruct (get_opt_data_key b "message") as [c ->]; [done|]. simpl.
  apply get_opt_data_key. done.
Qed.

(** ** The content extractor *)

(** C7, as the code has it.  For the json kind [extractMainContent] never
    fails and tries, in this order, the nested chat-completion message
    content, the top-level [content] member and the top-level [data] member;
    the first of them that is truthy is the result, and when none is (the
    member is missing, or is [null], [false], [0] or the empty string) the
    body is returned unchanged, an array like any other body.  So
    [{foo: 1}] is returned as it is and
    [{choices:[{message:{content:"hi"}}]}] gives ["hi"]. *)
Theorem extractMainContent_json_order :
  (∀ d : json, ∃ chat content wrapped,
      chat_content d = Normal chat
      ∧ get_opt d "content" = Normal content
      ∧ get_opt d "data" = Normal wrapped
      ∧ OpenFetch.extractMainContent d Json =
          Normal (if truthy chat then chat
                  else if truthy content then content
                  else if truthy wrapped then wrapped
                  else d))
  ∧ OpenFetch.extractMainContent (JObj [ ("foo", JNum 1) ]) Json
    = Normal (JObj [ ("foo", JNum 1) ])
  ∧ OpenFetch.extractMainContent
      (JObj [ ("choices",
               JArr [ JObj [ ("message", JObj [ ("content", JStr "hi") ]) ] ]) ])
      Json
    = Normal (JStr "hi").
Proof.
  split; [|by vm_compute].
  intros d.
  destruct (chat_content_normal d) as [chat Hchat].
  destruct (get_opt_data_key d "content") as [content Hcontent]; [done|].
  destruct (get_opt_data_key d "data") as [wrapped Hwrapped]; [done|].
  exists chat, content, wrapped. repeat split; try done.
  unfold OpenFetch.extractMainContent. rewrite Hchat. simpl.
  destruct (truthy chat); [done|]. rewrite Hcontent. simpl.
  destruct (truthy content); [done|]. rewrite Hwrapped. simpl.
  destruct (truthy wrapped); [done|]. by destruct d.
Qed.

(** C7 as the specification words it fails: a body whose top-level
    [content] member is the empty string has no chat-completion shape and
    has a [content] member, yet the result is the whole body, not the
    member. *)
Lemma extractMainContent_falsy_content :
  chat_content (JObj [ ("content", JStr "") ]) = Normal JUndef
  ∧ get_field "content" [ ("content", JStr "") ] = Some (JStr "")
  ∧ OpenFetch.extractMainContent (JObj [ ("content", JStr "") ]) Json
    = Normal (JObj [ ("content", JStr "") ])
  ∧ OpenFetch.extractMainContent (JObj [ ("content", JStr "") ]) Json
    ≠ Normal (JStr "").
Proof. by vm_compute. Qed.

(** ** The transform registry *)

(** A name that the registry does not define and [Object.prototype] does not
    have is skipped: the value goes through unchanged. *)
Lemma apply_transform_unknown fns name d :
  own_transform name fns = None →
  mem name object_prototype_members = false →
  apply_transform fns (Some name) d = Normal d.
Proof.
  intros Hown Hproto. unfold apply_transform, lookup_transform.
  rewrite Hown, Hproto. by destruct (negb _).
Qed.

(** C8 fails on the names of [Object.prototype].  Neither registry defines
    [toString] or [__proto__], yet [transformFunctions["toString"]] is the
    inherited method: the transform stage of both routes turns a value into
    ["[object Object]"], where [identity] and a name that is defined
    nowhere keep it; and [transformFunctions["__proto__"]] is an object that
    is not callable, so the stage throws a TypeError and the route replies
    500. *)
Theorem transform_stage_inherited_names :
  own_transform "toString" ChainFetch.transformFunctions = None
  ∧ own_transform "toString" OpenFetch.transformFunctions = None
  ∧ apply_transform ChainFetch.transformFunctions (Some "toString") (JStr "hello")
    = Normal (JStr "[object Object]")
  ∧ apply_transform OpenFetch.transformFunctions (Some "toString") (JStr "hello")
    = Normal (JStr "[object Object]")
  ∧ apply_transform ChainFetch.transformFunctions (Some "identity") (JStr "hello")
    = Normal (JStr "hello")
  ∧ fst <$> fst (ChainFetch.POST signed_in
                   (answers (json_response item_text item_body)
                      (json_response done_text done_body))
                   {| ChainFetch.steps := [ step_A; step_B ];
                      ChainFetch.transforms :=
                        Some [ no_link; link_named "toString" ] |})
    = [ step_A; with_body (JStr "[object Object]") step_B ]
  ∧ fst <$> fst (ChainFetch.POST signed_in
                   (answers (json_response item_text item_body)
                      (json_response done_text done_body))
                   {| ChainFetch.steps := [ step_A; step_B ];
                      ChainFetch.transforms :=
                        Some [ no_link; link_named "identity" ] |})
    = [ step_A; with_body item_body step_B ]
  ∧ fst <$> fst (ChainFetch.POST signed_in
                   (answers (json_response item_text item_body)
                      (json_response done_text done_body))
                   {| ChainFetch.steps := [ step_A; step_B ];
                      ChainFetch.transforms :=
                        Some [ no_link; link_named "no-such-transform" ] |})
    = [ step_A; with_body item_body step_B ]
  ∧ snd (ChainFetch.POST signed_in
           (answers (json_response item_text item_body)
              (json_response done_text done_body))
           {| ChainFetch.steps := [ step_A; step_B ];
              ChainFetch.transforms :=
                Some [ no_link; link_named "__proto__" ] |})
    = Normal (ChainFetch.Json500
                (TypeError "transformFunctions[transformFn] is not a function"))
  ∧ fst <$> fst (OpenFetch.POST
                   (answers (json_response chat_text chat_body)
                      (json_response done_text done_body))
                   (hop_named "toString"))
    = [ OpenFetch.request (hop_named "toString");
        with_body (JStr "[object Object]") step_B ]
  ∧ fst <$> fst (OpenFetch.POST
                   (answers (json_response chat_text chat_body)
                      (json_response done_text done_body))
                   (hop_named "identity"))
    = [ OpenFetch.request (hop_named "identity");
        with_body (JStr "hi") step_B ].
Proof. repeat (split; [by vm_compute|]). by vm_compute. Qed.

(** ** Path utilities *)

Lemma has_field_cons k k' v' fs :
  has_field k ((k', v') :: fs) = String.eqb k k' || has_field k fs.
Proof. unfold has_field. simpl. by destruct (String.eqb k k'). Qed.

Lemma get_update_field k v fs :
  has_field k fs = true → get_field k (update_field k v fs) = Some v.
Proof.
  induction fs as [|[k' v'] fs IH]; [done|]. rewrite has_field_cons. simpl.
  destruct (String.eqb k k') eqn:E; simpl; [by rewrite String.eqb_refl|].
  by rewrite E.
Qed.

Lemma get_add_field k v fs :
  has_field k fs = false → get_field k (add_field k v fs) = Some v.
Proof.
  induction fs as [|[k' v'] fs IH]; simpl; [by rewrite String.eqb_refl|].
  rewrite has_field_cons. intros [E H]%orb_false_iff.
  destruct (listed_before k k'); simpl; [by rewrite String.eqb_refl|].
  rewrite E. by apply IH.
Qed.

Lemma get_set_field k v fs : get_field k (set_field k v fs) = Some v.
Proof.
  unfold set_field. destruct (has_field k fs) eqn:H.
  - by apply get_update_field.
  - by apply get_add_field.
Qed.

Lemma has_set_field k v fs : has_field k (set_field k v fs) = true.
Proof. unfold has_field. by rewrite get_set_field. Qed.

Lemma update_update_field k v w fs :
  update_field k w (update_field k v fs) = update_field k w fs.
Proof.
  induction fs as [|[k' v'] fs IH]; simpl; [done|].
  destruct (String.eqb k k') eqn:E; simpl; [by rewrite String.eqb_refl|].
  by rewrite E, IH.
Qed.

Lemma update_add_field k v w fs :
  has_field k fs = false → update_field k w (add_field k v fs) = add_field k w fs.
Proof.
  induction fs as [|[k' v'] fs IH]; simpl; [by rewrite String.eqb_refl|].
  rewrite has_field_cons. intros [E H]%orb_false_iff.
  destruct (listed_before k k'); simpl; [by rewrite String.eqb_refl|].
  by rewrite E, IH.
Qed.

Lemma set_field_singleton k v w : set_field k v [ (k, w) ] = [ (k, v) ].
Proof.
  unfold set_field, has_field. simpl. rewrite String.eqb_refl. simpl.
  by rewrite ?String.eqb_refl.
Qed.

Lemma set_set_field k v w fs :
  set_field k w (set_field k v fs) = set_field k w fs.
Proof.
  unfold set_field at 1. rewrite has_set_field. unfold set_field.
  destruct (has_field k fs) eqn:H.
  - apply update_update_field.
  - by apply update_add_field.
Qed.

(** Reading back what was just written. *)
Lemma get_set_prop o k v o' :
  set_prop o k v = Normal o' → get_opt o' k = Normal v.
Proof.
  destruct o as [| | | | |xs|fs|]; simpl; try done.
  - destruct (array_index k) as [i|] eqn:Hi; [|done].
    intros [= <-]. simpl. rewrite Hi. f_equal. rewrite nth_lookup.
    case_decide as Hlt.
    + by rewrite list_lookup_insert_eq.
    + rewrite lookup_app_r by lia. rewrite lookup_app_r; rewrite length_replicate; [|lia].
      by replace (i - length xs - (i - length xs)) with 0 by lia.
  - destruct (_ && _); [done|]. intros [= <-]. simpl.
    by rewrite get_set_field.
Qed.

Lemma extractByPath_cons d k path :
  extractByPath d (k :: path) = (a ← get_opt d k; extractByPath a path).
Proof.
  unfold extractByPath. simpl. destruct (get_opt d k) as [a| |]; simpl; [done| |].
  - induction path; simpl; auto.
  - induction path; simpl; auto.
Qed.

(** Whenever [inject_walk] returns, the value is found along the path. *)
Lemma extract_inject_walk parts : ∀ acc lastPart v acc',
  inject_walk acc parts lastPart v = Normal acc' →
  extractByPath acc' (parts ++ [lastPart])%list = Normal v.
Proof.
  induction parts as [|part parts IH]; intros acc lastPart v acc'; simpl.
  - intros H. rewrite extractByPath_cons, (get_set_prop _ _ _ _ H). done.
  - destruct (get_prop acc part) as [child| |]; simpl; [|done..].
    destruct (truthy child).
    + destruct (inject_walk child parts lastPart v) as [child'| |] eqn:Hw;
        simpl; [|done..].
      intros H. rewrite extractByPath_cons, (get_set_prop _ _ _ _ H). simpl.
      eauto.
    + destruct (set_prop acc part (JObj [])) as [acc1| |]; simpl; [|done..].
      destruct (inject_walk (JObj []) parts lastPart v) as [child'| |] eqn:Hw;
        simpl; [|done..].
      intros H. rewrite extractByPath_cons, (get_set_prop _ _ _ _ H). simpl.
      eauto.
Qed.

Lemma split_removelast_last sep s :
  split sep s = (removelast (split sep s) ++ [ List.last (split sep s) "" ])%list.
Proof. apply app_removelast_last, split_nonempty. Qed.

Lemma extract_injectAtPath obj p v obj' :
  injectAtPath obj p v = Normal obj' →
  extractByPath obj' (split "." p) = Normal v.
Proof.
  unfold injectAtPath. intros H.
  rewrite (split_removelast_last "." p). by eapply extract_inject_walk.
Qed.

Lemma set_prop_mapping k v fs :
  negb (String.eqb k "__proto__") || has_field k fs = true →
  set_prop (JObj fs) k v = Normal (JObj (set_field k v fs)).
Proof.
  intros H. simpl. destruct (String.eqb k "__proto__"), (has_field k fs); done.
Qed.

Lemma proto_is_member k :
  mem k object_prototype_members = false → String.eqb k "__proto__" = false.
Proof.
  intros H. destruct (String.eqb k "__proto__") eqn:E; [|done].
  apply String.eqb_eq in E as ->. done.
Qed.

(** On a fresh mapping the walk builds the chain of mappings. *)
Lemma inject_walk_fresh parts : ∀ lastPart v,
  walkable (JObj []) parts lastPart = true →
  inject_walk (JObj []) parts lastPart v = Normal (nest parts lastPart v).
Proof.
  induction parts as [|part parts IH]; intros lastPart v.
  - intros H. cbn [inject_walk nest]. by rewrite (set_prop_mapping _ _ _ H).
  - cbn [walkable inject_walk get_prop get_field nest].
    intros [Hm Hw]%andb_true_iff. apply negb_true_iff in Hm.
    unfold inherited. simpl builtin_members. simpl mem at 1. rewrite Hm.
    cbn [orb mbind completion_bind truthy].
    rewrite set_prop_mapping by (by rewrite (proto_is_member _ Hm)).
    cbn [mbind completion_bind]. rewrite (IH _ _ Hw).
    cbn [mbind completion_bind].
    rewrite set_prop_mapping by (by rewrite (proto_is_member _ Hm)).
    change (set_field part (JObj []) []) with [ (part, JObj []) ].
    by rewrite set_field_singleton.
Qed.

(** On a walkable path the walk returns. *)
Lemma inject_walk_total parts : ∀ m lastPart v,
  walkable m parts lastPart = true →
  ∃ m', inject_walk m parts lastPart v = Normal m'.
Proof.
  induction parts as [|part parts IH]; intros m lastPart v;
    destruct m as [| | | | | |fs|]; try done.
  - intros H. cbn [inject_walk]. rewrite (set_prop_mapping _ _ _ H). eauto.
  - cbn [walkable inject_walk get_prop].
    destruct (get_field part fs) as [child|] eqn:Hget.
    + assert (Hown : has_field part fs = true) by (unfold has_field; by rewrite Hget).
      cbn [mbind completion_bind].
      destruct (truthy child).
      * intros Hw. destruct (IH _ _ v Hw) as [child' ->].
        cbn [mbind completion_bind]. rewrite set_prop_mapping; [eauto|].
        rewrite Hown. apply orb_true_r.
      * intros Hw. rewrite set_prop_mapping by (rewrite Hown; apply orb_true_r).
        cbn [mbind completion_bind]. rewrite (inject_walk_fresh _ _ _ Hw).
        cbn [mbind completion_bind]. rewrite set_prop_mapping; [eauto|].
        unfold has_field. rewrite get_set_field. apply orb_true_r.
    + intros [Hm Hw]%andb_true_iff. apply negb_true_iff in Hm.
      unfold inherited. simpl builtin_members. simpl mem at 1. rewrite Hm.
      cbn [orb mbind completion_bind truthy].
      rewrite set_prop_mapping by (by rewrite (proto_is_member _ Hm)).
      cbn [mbind completion_bind]. rewrite (inject_walk_fresh _ _ _ Hw).
      cbn [mbind completion_bind]. rewrite set_prop_mapping; [eauto|].
      by rewrite (proto_is_member _ Hm).
Qed.


(** One level of a walkable walk: the child that is walked (the mapping
    found at the key, or a fresh one) and what becomes of the parent. *)
Lemma inject_walk_step fs part parts lastPart v :
  walkable (JObj fs) (part :: parts) lastPart = true →
  ∃ child child',
    walkable child parts lastPart = true
    ∧ inject_walk child parts lastPart v = Normal child'
    ∧ inject_walk (JObj fs) (part :: parts) lastPart v
      = Normal (JObj (set_field part child' fs)).
Proof.
  cbn [walkable inject_walk get_prop].
  destruct (get_field part fs) as [child|] eqn:Hget.
  - assert (Hown : has_field part fs = true) by (unfold has_field; by rewrite Hget).
    cbn [mbind completion_bind]. destruct (truthy child).
    + intros Hw. destruct (inject_walk_total _ _ _ v Hw) as [child' Hc].
      exists child, child'. rewrite Hc. cbn [mbind completion_bind].
      rewrite set_prop_mapping by (rewrite Hown; apply orb_true_r). done.
    + intros Hw. destruct (inject_walk_total _ _ _ v Hw) as [child' Hc].
      exists (JObj []), child'.
      rewrite set_prop_mapping by (rewrite Hown; apply orb_true_r).
      cbn [mbind completion_bind]. rewrite Hc. cbn [mbind completion_bind].
      rewrite set_prop_mapping, set_set_field; [done|].
      unfold has_field. rewrite get_set_field. apply orb_true_r.
  - intros [Hm Hw]%andb_true_iff. apply negb_true_iff in Hm.
    destruct (inject_walk_total _ _ _ v Hw) as [child' Hc].
    exists (JObj []), child'.
    unfold inherited. simpl builtin_members. simpl mem at 1. rewrite Hm.
    cbn [orb mbind completion_bind truthy].
    rewrite set_prop_mapping by (by rewrite (proto_is_member _ Hm)).
    cbn [mbind completion_bind]. rewrite Hc. cbn [mbind completion_bind].
    rewrite set_prop_mapping by (by rewrite (proto_is_member _ Hm)).
    by rewrite set_set_field.
Qed.

(** After a walkable walk every node on the way to the value is a
    mapping. *)
Lemma inject_walk_nodes parts : ∀ m lastPart v m' k,
  walkable m parts lastPart = true →
  inject_walk m parts lastPart v = Normal m' →
  ∃ fs, extractByPath m' (take k parts) = Normal (JObj fs).
Proof.
  induction parts as [|part parts IH]; intros m lastPart v m' k;
    destruct m as [| | | | | |fs|]; try done.
  - intros Hw. cbn [inject_walk]. rewrite (set_prop_mapping _ _ _ Hw).
    intros [= <-]. rewrite take_nil. by eexists.
  - intros Hw. destruct (inject_walk_step _ _ _ _ v Hw)
      as (child & child' & Hcw & Hc & ->).
    intros [= <-]. destruct k as [|k]; [by eexists|].
    cbn [take]. rewrite extractByPath_cons. simpl. rewrite get_set_field. simpl.
    by eapply IH.
Qed.

Lemma forallb_cons_true {A} (f : A → bool) x l :
  forallb f (x :: l) = true → f x = true ∧ forallb f l = true.
Proof. simpl. by intros [??]%andb_true_iff. Qed.

(** What a data key reads on a primitive is a primitive or [undefined]. *)
Lemma get_prop_primitive o k :
  is_primitive o = true → data_key k = true →
  ∃ child, get_prop o k = Normal child
           ∧ (is_primitive child = true ∨ truthy child = false).
Proof.
  intros Ho Hk. destruct o as [| |b|x|s| | |]; try done; simpl.
  - rewrite (inherited_data_key _ _ Hk). eauto.
  - rewrite (inherited_data_key _ _ Hk). eauto.
  - destruct (array_index k) as [i|].
    + destruct (String.get i s); eauto.
    + destruct (String.eqb k "length"); [unfold js_length; eauto|].
      rewrite (inherited_data_key _ _ Hk). eauto.
Qed.

Lemma inject_walk_primitive parts : ∀ o lastPart v,
  is_primitive o = true →
  forallb data_key parts = true →
  ∃ msg, inject_walk o parts lastPart v = Throw (TypeError msg).
Proof.
  induction parts as [|part parts IH]; intros o lastPart v Ho Hkeys.
  - destruct o; try done; simpl; eauto.
  - apply forallb_cons_true in Hkeys as [Hk Hkeys]. cbn [inject_walk].
    destruct (get_prop_primitive o part Ho Hk) as (child & -> & Hchild).
    cbn [mbind completion_bind]. destruct (truthy child) eqn:Htruthy.
    + destruct Hchild as [Hprim|]; [|done].
      destruct (IH child lastPart v Hprim Hkeys) as [msg ->]. simpl. eauto.
    + destruct o; try done; simpl; eauto.
Qed.







(** ** The bearer token of the chained route *)

(** C5, as the code has it.  Once the session has produced the access
    token, and before any step runs, the token goes as
    [Authorization: Bearer <token>] into exactly the steps whose URL string
    contains ["api.openai.com"]: such a step keeps its other headers and all
    its other members, every other step is left as it is, and the loop runs
    over the steps so prepared. *)
Theorem bearer_token_by_url_substring
    (session : ChainFetch.Session) (fetch : network)
    (config : ChainFetch.ChainedApiConfig) (sub accessToken : string) :
  nonempty (ChainFetch.getToken session) = Some sub →
  nonempty (ChainFetch.getValidAccessToken session sub) = Some accessToken →
  fst (ChainFetch.POST session fetch config)
  = fst (ChainFetch.run fetch (ChainFetch.transforms config) 0 JNull
           (ChainFetch.authorize accessToken <$> ChainFetch.steps config))
  ∧ ∀ i step, ChainFetch.steps config !! i = Some step →
      (ChainFetch.authorize accessToken <$> ChainFetch.steps config) !! i
      = Some (ChainFetch.authorize accessToken step)
      ∧ (includes (url step) "api.openai.com" = true →
           ChainFetch.authorize accessToken step
           = with_headers
               (<["Authorization" := "Bearer " ++ accessToken]>
                  (default ∅ (headers step))) step
           ∧ default ∅ (headers (ChainFetch.authorize accessToken step))
               !! "Authorization" = Some ("Bearer " ++ accessToken)
           ∧ ∀ name, name ≠ "Authorization" →
               default ∅ (headers (ChainFetch.authorize accessToken step))
                 !! name = default ∅ (headers step) !! name)
      ∧ (includes (url step) "api.openai.com" = false →
           ChainFetch.authorize accessToken step = step).
Proof.
  intros Hsub Htok. split.
  - unfold ChainFetch.POST. rewrite Hsub, Htok.
    by destruct (ChainFetch.run _ _ _ _ _).
  - intros i step Hi. split; [by rewrite list_lookup_fmap, Hi|].
    unfold ChainFetch.authorize. split; intros ->; [|done].
    split; [done|]. simpl. split.
    + by rewrite lookup_insert_eq.
    + intros name Hne. by rewrite lookup_insert_ne.
Qed.

Lemma bearer_token_by_url_substring_witness :
  nonempty (ChainFetch.getToken
              {| ChainFetch.getToken := Some "user-1";
                 ChainFetch.getValidAccessToken := λ _, Some "tok" |})
  = Some "user-1"
  ∧ nonempty (ChainFetch.getValidAccessToken
                {| ChainFetch.getToken := Some "user-1";
                   ChainFetch.getValidAccessToken := λ _, Some "tok" |}
                "user-1")
    = Some "tok"
  ∧ ChainFetch.authorize "tok"
      {| url := "https://api.openai.com/v1/chat/completions"; method := "POST";
         headers := None; body := JUndef; params := None;
         responseType := None |}
    = with_headers
        (<["Authorization" := "Bearer tok"]> ∅)
        {| url := "https://api.openai.com/v1/chat/completions";
           method := "POST"; headers := None; body := JUndef; params := None;
           responseType := None |}.
Proof.
  split; [reflexivity|]. split; [reflexivity|].
  refine (proj1 (proj1 (proj2 (proj2
    (bearer_token_by_url_substring
       {| ChainFetch.getToken := Some "user-1";
          ChainFetch.getValidAccessToken := λ _, Some "tok" |}
       (λ _ _, inl (Rejected "offline"))
       {| ChainFetch.steps :=
            [ {| url := "https://api.openai.com/v1/chat/completions";
                 method := "POST"; headers := None; body := JUndef;
                 params := None; responseType := None |} ];
          ChainFetch.transforms := None |}
       "user-1" "tok" _ _) 0 _ _)) _)); reflexivity.
Defined.

(** C5 as the specification words it fails: the test is on the URL string,
    not on the host.  A step whose target host is [example.com] and whose
    path mentions the provider receives the caller's token. *)
Lemma bearer_token_to_other_host :
  spec_target_host "https://example.com/api.openai.com" = "example.com"
  ∧ spec_target_host "https://example.com/api.openai.com" ≠ "api.openai.com"
  ∧ headers
      (ChainFetch.authorize "tok"
         {| url := "https://example.com/api.openai.com"; method := "GET";
            headers := None; body := JUndef; params := None;
            responseType := None |})
    = Some (<["Authorization" := "Bearer tok"]> ∅).
Proof. split; [reflexivity|]. split; [by vm_compute|reflexivity]. Qed.

(** ** The loop of the chained route *)

Lemma decode_not_beyond mode r : decode mode r ≠ Beyond.
Proof. unfold decode. repeat case_match; done. Qed.

(** [makeApiCall] of the chained route returns a response or throws. *)
Lemma chain_makeApiCall_not_beyond fetch n config :
  ChainFetch.makeApiCall fetch n config ≠ Beyond.
Proof.
  unfold ChainFetch.makeApiCall.
  destruct (fetch n _) as [e|r]; [done|].
  destruct (negb (ok r)); [done|].
  destruct (getContentType _) as [type format].
  destruct (decode _ r) eqn:Hd; [done|done|]. by apply decode_not_beyond in Hd.
Qed.

(** A response of the chained route carries its body twice. *)
Lemma chain_makeApiCall_simplified fetch n config r :
  ChainFetch.makeApiCall fetch n config = Normal r →
  simplifiedContent r = data r.
Proof.
  unfold ChainFetch.makeApiCall.
  destruct (fetch n _) as [e|resp]; [done|].
  destruct (negb (ok resp)); [done|].
  destruct (getContentType _) as [type format].
  destruct (decode _ resp); [|done..]. by intros [= <-].
Qed.

Section Loop.

Context (fetch : network) (transforms : option (list ChainFetch.ChainLink)).

(** One iteration of [run] on [step :: rest], by cases: the call succeeded
    (and the loop goes on), the call failed, or the step could not be
    prepared. *)
Ltac iteration step' r Hcall calls' out' Hrun :=
  simpl;
  match goal with
  | |- context [ChainFetch.prepare transforms ?i ?cd ?step] =>
      destruct (ChainFetch.prepare transforms i cd step) as [step'| |];
      [ destruct (ChainFetch.makeApiCall fetch i step') as [r| |] eqn:Hcall;
        [ match goal with
          | |- context [ChainFetch.run fetch transforms ?j ?d ?rest] =>
              destruct (ChainFetch.run fetch transforms j d rest)
                as [calls' out'] eqn:Hrun
          end
        |
        | by apply chain_makeApiCall_not_beyond in Hcall ]
      | .. ]
  end.

(** Every call of the log is the call of the step at the same position,
    prepared from the body of the previous response. *)
Lemma run_call todo : ∀ i currentData calls out k req res,
  ChainFetch.run fetch transforms i currentData todo = (calls, out) →
  calls !! k = Some (req, res) →
  ∃ step, todo !! k = Some step
    ∧ ChainFetch.prepare transforms (i + k) (data_before currentData calls k) step
      = Normal req
    ∧ res = ChainFetch.makeApiCall fetch (i + k) req.
Proof.
  induction todo as [|step rest IH]; intros i cd calls out k req res;
    [by intros [= <- <-]|].
  simpl. destruct (ChainFetch.prepare transforms i cd step) as [step'| |] eqn:Hp;
    [|by intros [= <- <-]..].
  destruct (ChainFetch.makeApiCall fetch i step') as [r|e|] eqn:Hcall.
  - destruct (ChainFetch.run fetch transforms (S i) (data r) rest)
      as [calls' out'] eqn:Hrun.
    intros [= <- <-]. destruct k as [|k]; simpl.
    + intros [= <- <-]. exists step. by rewrite Nat.add_0_r.
    + intros Hk. destruct (IH _ _ _ _ _ _ _ Hrun Hk) as (s & Hs & Hprep & Hres).
      exists s. rewrite Nat.add_succ_r. split; [done|]. split; [|done].
      rewrite <- Hprep. f_equal. by destruct k.
  - intros [= <- <-]. destruct k as [|k]; simpl; [|done].
    intros [= <- <-]. exists step. by rewrite Nat.add_0_r.
  - by apply chain_makeApiCall_not_beyond in Hcall.
Qed.

(** A loop that completes has called every step and returns the responses
    of its calls, in order. *)
Lemma run_completed todo : ∀ i currentData calls rs,
  ChainFetch.run fetch transforms i currentData todo = (calls, Normal rs) →
  snd <$> calls = Normal <$> rs ∧ length rs = length todo.
Proof.
  induction todo as [|step rest IH]; intros i cd calls rs;
    [by intros [= <- <-]|].
  iteration step' r Hcall calls' out' Hrun; [|done..].
  destruct out' as [rs'| |]; simpl; [|done..].
  intros [= <- <-]. destruct (IH _ _ _ _ Hrun) as [Hc Hl].
  split; [rewrite !fmap_cons; by f_equal|simpl; by rewrite Hl].
Qed.

(** When as many calls were made as there are steps and all succeeded, the
    loop completes. *)
Lemma run_all_succeeded todo : ∀ i currentData calls out,
  ChainFetch.run fetch transforms i currentData todo = (calls, out) →
  length calls = length todo →
  forallb succeeded calls = true →
  ∃ rs, out = Normal rs.
Proof.
  induction todo as [|step rest IH]; intros i cd calls out;
    [intros [= <- <-]; by eauto|].
  iteration step' r Hcall calls' out' Hrun; [|by intros [= <- <-]..].
  intros [= <- <-]. simpl. intros [= Hl] Hs.
  destruct (IH _ _ _ _ Hrun Hl Hs) as [rs ->]. simpl. eauto.
Qed.

(** A call that fails is the last one, and its error leaves the loop. *)
Lemma run_failed todo : ∀ i currentData calls out k c,
  ChainFetch.run fetch transforms i currentData todo = (calls, out) →
  calls !! k = Some c →
  succeeded c = false →
  length calls = S k ∧ ∃ e, snd c = Throw e ∧ out = Throw e.
Proof.
  induction todo as [|step rest IH]; intros i cd calls out k c;
    [by intros [= <- <-]|].
  iteration step' r Hcall calls' out' Hrun; [| |by intros [= <- <-]..].
  - intros [= <- <-]. destruct k as [|k]; simpl; [by intros [= <-]|].
    intros Hk Hf. destruct (IH _ _ _ _ _ _ Hrun Hk Hf) as (-> & e & He & ->).
    eauto.
  - intros [= <- <-]. destruct k as [|k]; simpl; [|done].
    intros [= <-] _. eauto.
Qed.

(** The responses of a loop that completes carry their body twice. *)
Lemma run_simplified todo : ∀ i currentData calls rs,
  ChainFetch.run fetch transforms i currentData todo = (calls, Normal rs) →
  Forall (λ r, simplifiedContent r = data r) rs.
Proof.
  induction todo as [|step rest IH]; intros i cd calls rs;
    [intros [= <- <-]; by constructor|].
  iteration step' r Hcall calls' out' Hrun; [|done..].
  destruct out' as [rs'| |]; simpl; [|done..].
  intros [= <- <-]. constructor; [|by eapply IH].
  by eapply chain_makeApiCall_simplified.
Qed.

End Loop.

(** ** The chained route *)

Lemma chain_POST_run session fetch config sub accessToken :
  nonempty (ChainFetch.getToken session) = Some sub →
  nonempty (ChainFetch.getValidAccessToken session sub) = Some accessToken →
  ∃ out,
    ChainFetch.run fetch (ChainFetch.transforms config) 0 JNull
      (ChainFetch.authorize accessToken <$> ChainFetch.steps config)
    = (fst (ChainFetch.POST session fetch config), out)
    ∧ snd (ChainFetch.POST session fetch config)
      = match out with
        | Normal rs => Normal (ChainFetch.Json200 rs)
        | Throw e => Normal (ChainFetch.Json500 e)
        | Beyond => Beyond
        end.
Proof.
  intros Hsub Htok. unfold ChainFetch.POST. rewrite Hsub, Htok.
  destruct (ChainFetch.run _ _ _ _ _) as [calls out]. by exists out.
Qed.

Lemma authorize_body accessToken step :
  body (ChainFetch.authorize accessToken step) = body step.
Proof. unfold ChainFetch.authorize. by destruct (includes _ _). Qed.

(** What it takes for a call of the chained route to succeed: the transport
    delivers a response, its status is 2xx, and its body decodes. *)
Lemma chain_makeApiCall_succeeds fetch n config :
  is_normal (ChainFetch.makeApiCall fetch n config) = true ↔
  ∃ r, fetch n (fetch_request config) = inr r
       ∧ ok r = true
       ∧ is_normal (decode (default "json" (responseType config)) r) = true.
Proof.
  unfold ChainFetch.makeApiCall. destruct (fetch n _) as [e|r].
  - split; [done|]. by intros (r & [=] & _).
  - destruct (ok r) eqn:Hok; simpl.
    + destruct (getContentType _) as [type format].
      destruct (decode _ r) eqn:Hd; simpl.
      * split; [|done]. intros _. exists r. by rewrite Hd.
      * split; [done|]. intros (r' & [= <-] & _ & H). by rewrite Hd in H.
      * split; [done|]. intros (r' & [= <-] & _ & H). by rewrite Hd in H.
    + split; [done|]. intros (r' & [= <-] & H & _). congruence.
Qed.

(** The loop makes at most one call for each step. *)
Lemma run_length fetch transforms todo i currentData calls out :
  ChainFetch.run fetch transforms i currentData todo = (calls, out) →
  (length calls ≤ length todo)%nat.
Proof.
  intros Hrun. destruct (decide (length calls ≤ length todo)%nat); [done|].
  destruct (lookup_lt_is_Some_2 calls (length calls - 1)) as [[req res] Hk];
    [lia|].
  destruct (run_call _ _ _ _ _ _ _ _ _ _ Hrun Hk) as (s & Hstep & _).
  apply lookup_lt_Some in Hstep. lia.
Qed.

(** A log with a call that did not succeed. *)
Lemma forallb_false_lookup {A} (f : A → bool) (l : list A) :
  forallb f l = false → ∃ k x, l !! k = Some x ∧ f x = false.
Proof.
  induction l as [|x l IH]; simpl; [done|].
  destruct (f x) eqn:Hx; simpl.
  - intros (k & y & Hk & Hy)%IH. by exists (S k), y.
  - intros _. by exists 0, x.
Qed.

(** The outcome of a call of the chained route, read off the network's
    answer. *)
Lemma chain_makeApiCall_cases fetch n config :
  (∀ e, fetch n (fetch_request config) = inl e →
        ChainFetch.makeApiCall fetch n config = Throw e)
  ∧ (∀ r, fetch n (fetch_request config) = inr r → ok r = false →
          ChainFetch.makeApiCall fetch n config
          = Throw (HttpError (response_status r) (response_statusText r)
                     (Some (response_text r))))
  ∧ (∀ r cause,
       fetch n (fetch_request config) = inr r → ok r = true →
       default "json" (responseType config) ∉ raw_modes →
       response_json r = inl cause →
       ChainFetch.makeApiCall fetch n config
       = Throw (ParseError (default "json" (responseType config)) cause))
  ∧ (∀ r d,
       fetch n (fetch_request config) = inr r → ok r = true →
       default "json" (responseType config) ∉ raw_modes →
       response_json r = inr d →
       ChainFetch.makeApiCall fetch n config = Normal (response_of r d d)).
Proof.
  assert (Hjson : ∀ mode r, mode ∉ raw_modes →
            decode mode r = match response_json r with
                            | inr v => Normal v
                            | inl msg => Throw (Rejected msg)
                            end).
  { intros mode r. unfold raw_modes. rewrite !not_elem_of_cons.
    intros (Ht & Hb & Ha & _). unfold decode.
    destruct (String.eqb_spec mode "text"); [done|].
    destruct (String.eqb_spec mode "blob"); [done|].
    by destruct (String.eqb_spec mode "arrayBuffer"). }
  unfold ChainFetch.makeApiCall, response_of. repeat split.
  - by intros e ->.
  - by intros r -> ->.
  - intros r cause -> -> Hmode Hparse. simpl.
    destruct (getContentType _). by rewrite (Hjson _ _ Hmode), Hparse.
  - intros r d -> -> Hmode Hparse. simpl.
    destruct (getContentType _). by rewrite (Hjson _ _ Hmode), Hparse.
Qed.

(** C2.  For an invocation that passed the session check, with [N] steps.
    A [{steps}] reply always holds exactly [N] responses, those of the [N]
    calls made, in the order of the calls; it is the reply whenever [N]
    calls were made and all succeeded.  A call that fails is the last one
    made and the reply is the 500 that carries its error and no response.
    A call fails when the transport fails (with the transport's error), when
    the status is not 2xx (with the status, the status text and the body
    text) and when the body is to be parsed as JSON and does not parse (with
    the mode and the parser's message); it succeeds when the body parses.
    These are all the cases but one: the invocation stops before the last
    step with no failed call (a link raised), and then the reply is not a
    [{steps}] reply either. *)
Theorem all_responses_or_error
    (session : ChainFetch.Session) (fetch : network)
    (config : ChainFetch.ChainedApiConfig) (sub accessToken : string) :
  nonempty (ChainFetch.getToken session) = Some sub →
  nonempty (ChainFetch.getValidAccessToken session sub) = Some accessToken →
  (∀ rs,
     snd (ChainFetch.POST session fetch config)
     = Normal (ChainFetch.Json200 rs) →
     length rs = length (ChainFetch.steps config)
     ∧ length (fst (ChainFetch.POST session fetch config))
       = length (ChainFetch.steps config)
     ∧ snd <$> fst (ChainFetch.POST session fetch config) = Normal <$> rs)
  ∧ (length (fst (ChainFetch.POST session fetch config))
       = length (ChainFetch.steps config) →
     forallb succeeded (fst (ChainFetch.POST session fetch config)) = true →
     ∃ rs, snd (ChainFetch.POST session fetch config)
           = Normal (ChainFetch.Json200 rs))
  ∧ (∀ k c, fst (ChainFetch.POST session fetch config) !! k = Some c →
       succeeded c = false →
       length (fst (ChainFetch.POST session fetch config)) = S k
       ∧ ∃ e, snd c = Throw e
              ∧ snd (ChainFetch.POST session fetch config)
                = Normal (ChainFetch.Json500 e))
  ∧ (∀ k req res,
       fst (ChainFetch.POST session fetch config) !! k = Some (req, res) →
       (∀ e, fetch k (fetch_request req) = inl e → res = Throw e)
       ∧ (∀ r, fetch k (fetch_request req) = inr r → ok r = false →
               res = Throw (HttpError (response_status r)
                              (response_statusText r)
                              (Some (response_text r))))
       ∧ (∀ r cause,
            fetch k (fetch_request req) = inr r → ok r = true →
            default "json" (responseType req) ∉ raw_modes →
            response_json r = inl cause →
            res = Throw (ParseError (default "json" (responseType req)) cause))
       ∧ (∀ r d,
            fetch k (fetch_request req) = inr r → ok r = true →
            default "json" (responseType req) ∉ raw_modes →
            response_json r = inr d →
            res = Normal (response_of r d d)))
  ∧ ((∃ rs, snd (ChainFetch.POST session fetch config)
            = Normal (ChainFetch.Json200 rs)
            ∧ length (fst (ChainFetch.POST session fetch config))
              = length (ChainFetch.steps config)
            ∧ forallb succeeded (fst (ChainFetch.POST session fetch config))
              = true)
     ∨ (∃ k c e,
          fst (ChainFetch.POST session fetch config) !! k = Some c
          ∧ snd c = Throw e
          ∧ length (fst (ChainFetch.POST session fetch config)) = S k
          ∧ snd (ChainFetch.POST session fetch config)
            = Normal (ChainFetch.Json500 e))
     ∨ (length (fst (ChainFetch.POST session fetch config))
          < length (ChainFetch.steps config)
        ∧ forallb succeeded (fst (ChainFetch.POST session fetch config)) = true
        ∧ ∀ rs, snd (ChainFetch.POST session fetch config)
                ≠ Normal (ChainFetch.Json200 rs))).
Proof.
  intros Hsub Htok.
  destruct (chain_POST_run session fetch config _ _ Hsub Htok)
    as (out & Hrun & Hreply).
  assert (Hfull : ∀ rs,
    snd (ChainFetch.POST session fetch config)
    = Normal (ChainFetch.Json200 rs) →
    length rs = length (ChainFetch.steps config)
    ∧ length (fst (ChainFetch.POST session fetch config))
      = length (ChainFetch.steps config)
    ∧ snd <$> fst (ChainFetch.POST session fetch config) = Normal <$> rs).
  { intros rs Hrs. rewrite Hrs in Hreply.
    destruct out as [rs'| |]; [|done..]. injection Hreply as <-.
    destruct (run_completed _ _ _ _ _ _ _ Hrun) as [Hcalls Hlen].
    rewrite length_fmap in Hlen. split; [done|]. split; [|done].
    rewrite <- Hlen, <- (length_fmap Normal rs), <- Hcalls.
    by rewrite length_fmap. }
  assert (Hfail : ∀ k c,
    fst (ChainFetch.POST session fetch config) !! k = Some c →
    succeeded c = false →
    length (fst (ChainFetch.POST session fetch config)) = S k
    ∧ ∃ e, snd c = Throw e
           ∧ snd (ChainFetch.POST session fetch config)
             = Normal (ChainFetch.Json500 e)).
  { intros k c Hk Hf.
    destruct (run_failed _ _ _ _ _ _ _ _ _ Hrun Hk Hf) as (Hlen & e & He & ->).
    eauto. }
  assert (Hall :
    length (fst (ChainFetch.POST session fetch config))
    = length (ChainFetch.steps config) →
    forallb succeeded (fst (ChainFetch.POST session fetch config)) = true →
    ∃ rs, snd (ChainFetch.POST session fetch config)
          = Normal (ChainFetch.Json200 rs)).
  { intros Hlen Hs.
    rewrite <- (length_fmap (ChainFetch.authorize accessToken)) in Hlen.
    destruct (run_all_succeeded _ _ _ _ _ _ _ Hrun Hlen Hs) as [rs ->]. eauto. }
  split; [exact Hfull|]. split; [exact Hall|]. split; [exact Hfail|]. split.
  - intros k req res Hk.
    destruct (run_call _ _ _ _ _ _ _ _ _ _ Hrun Hk) as (_ & _ & _ & ->).
    apply chain_makeApiCall_cases.
  - destruct (forallb succeeded (fst (ChainFetch.POST session fetch config)))
      eqn:Hs.
    + destruct (decide (length (fst (ChainFetch.POST session fetch config))
                        = length (ChainFetch.steps config))) as [Hlen|Hlen].
      * left. destruct (Hall Hlen eq_refl) as [rs Hrs]. by exists rs.
      * right. right.
        assert (Hno : ∀ rs, snd (ChainFetch.POST session fetch config)
                            ≠ Normal (ChainFetch.Json200 rs)).
        { intros rs Hrs. by destruct (Hfull rs Hrs) as (_ & ? & _). }
        split; [|done].
        pose proof (run_length _ _ _ _ _ _ _ Hrun) as Hle.
        rewrite length_fmap in Hle. lia.
    + right. left.
      destruct (forallb_false_lookup _ _ Hs) as (k & c & Hk & Hc).
      destruct (Hfail k c Hk Hc) as (Hlen & e & He & Hr).
      by exists k, c, e.
Qed.

Lemma all_responses_or_error_witness :
  nonempty (ChainFetch.getToken signed_in) = Some "user-1"
  ∧ nonempty (ChainFetch.getValidAccessToken signed_in "user-1")
    = Some "token-1"
  ∧ ChainFetch.POST signed_in
      (answers (json_response item_text item_body) error_response)
      {| ChainFetch.steps := [ step_A; step_B; step_A ];
         ChainFetch.transforms := None |}
    = ([ (step_A, Normal (json_result item_body));
         (step_B,
          Throw (HttpError 500 "Internal Server Error" (Some "boom"))) ],
       Normal (ChainFetch.Json500
                 (HttpError 500 "Internal Server Error" (Some "boom"))))
  ∧ snd (ChainFetch.POST signed_in
           (answers (json_response item_text item_body)
              (json_response done_text done_body))
           {| ChainFetch.steps := [ step_A; step_B ];
              ChainFetch.transforms := None |})
    = Normal (ChainFetch.Json200
                [ json_result item_body; json_result done_body ])
  ∧ length [ json_result item_body; json_result done_body ]
    = length [ step_A; step_B ]
  ∧ length (fst (ChainFetch.POST signed_in
                   (answers (json_response item_text item_body)
                      (json_response done_text done_body))
                   {| ChainFetch.steps := [ step_A; step_B ];
                      ChainFetch.transforms := None |}))
    = length [ step_A; step_B ].
Proof.
  split; [reflexivity|]. split; [reflexivity|]. split; [reflexivity|].
  split; [reflexivity|].
  destruct (proj1
    (all_responses_or_error signed_in
       (answers (json_response item_text item_body)
          (json_response done_text done_body))
       {| ChainFetch.steps := [ step_A; step_B ];
          ChainFetch.transforms := None |}
       "user-1" "token-1" eq_refl eq_refl)
    [ json_result item_body; json_result done_body ] eq_refl)
    as (Hrs & Hcalls & _).
  split; [exact Hrs|exact Hcalls].
Defined.

(** What [makeApiCall] of the single-hop route puts in
    [simplifiedContent]: the content extractor on the body and the kind. *)
Lemma open_makeApiCall_simplified fetch n config r :
  OpenFetch.makeApiCall fetch n config = Normal r →
  OpenFetch.extractMainContent (data r) (contentType r)
  = Normal (simplifiedContent r).
Proof.
  unfold OpenFetch.makeApiCall.
  destruct (fetch n _) as [e|resp]; [done|].
  destruct (negb (ok resp)); [done|].
  destruct (getContentType _) as [type format].
  destruct (decode _ resp) as [d| |]; simpl; [|done..].
  destruct (OpenFetch.extractMainContent d type) as [s| |] eqn:Hs; simpl;
    [|done..].
  by intros [= <-].
Qed.

(** C3, as the code has it.  Every response in the [{steps}] reply of the
    chained route has its decoded body, unchanged, as [simplifiedContent]:
    the chained route does not apply the content extractor (the single-hop
    route does). *)
Theorem chained_simplifiedContent_is_body
    (session : ChainFetch.Session) (fetch : network)
    (config : ChainFetch.ChainedApiConfig) (rs : list ApiResponse) :
  snd (ChainFetch.POST session fetch config) = Normal (ChainFetch.Json200 rs) →
  Forall (λ r, simplifiedContent r = data r) rs.
Proof.
  unfold ChainFetch.POST.
  destruct (nonempty (ChainFetch.getToken session)) as [sub|]; [|done].
  destruct (nonempty (ChainFetch.getValidAccessToken session sub))
    as [accessToken|]; [|done].
  destruct (ChainFetch.run _ _ _ _ _) as [calls out] eqn:Hrun. simpl.
  destruct out as [rs'| |]; [|done..]. intros [= <-].
  by eapply run_simplified.
Qed.

Lemma chained_simplifiedContent_is_body_witness :
  snd (ChainFetch.POST signed_in
         (answers (json_response chat_text chat_body) error_response)
         {| ChainFetch.steps := [ step_A ]; ChainFetch.transforms := None |})
  = Normal (ChainFetch.Json200 [ json_result chat_body ])
  ∧ Forall (λ r, simplifiedContent r = data r) [ json_result chat_body ].
Proof.
  split; [reflexivity|].
  apply (chained_simplifiedContent_is_body signed_in
           (answers (json_response chat_text chat_body) error_response)
           {| ChainFetch.steps := [ step_A ]; ChainFetch.transforms := None |}).
  reflexivity.
Defined.

(** C3 as the specification words it fails: for the JSON body
    [{choices:[{message:{content:"hi"}}]}] the content extractor gives
    ["hi"], and the chained route reports the whole body. *)
Lemma chained_simplifiedContent_not_extracted :
  (λ r, (contentType r, simplifiedContent r)) <$>
    responses_of
      (snd (ChainFetch.POST signed_in
              (answers (json_response chat_text chat_body) error_response)
              {| ChainFetch.steps := [ step_A ];
                 ChainFetch.transforms := None |}))
  = [ (Json, chat_body) ]
  ∧ OpenFetch.extractMainContent chat_body Json = Normal (JStr "hi")
  ∧ chat_body ≠ JStr "hi".
Proof. split; [reflexivity|]. split; [reflexivity|done]. Qed.

(** The request a successful [prepare] returns when the link is applied. *)
Lemma apply_link_normal link currentData step req :
  ChainFetch.apply_link link currentData step = Normal req →
  ∃ extracted transformed,
    match ChainFetch.extractPath link with
    | Some path => extractByPath currentData path
    | None => Normal currentData
    end = Normal extracted
    ∧ apply_transform ChainFetch.transformFunctions
        (ChainFetch.transformFn link) extracted = Normal transformed
    ∧ match nonempty (ChainFetch.injectPath link) with
      | Some path =>
          ∃ b, injectAtPath (js_or (body step) (JObj [])) path transformed
               = Normal b
               ∧ req = with_body b step
      | None => req = with_body transformed step
      end.
Proof.
  unfold ChainFetch.apply_link.
  destruct (match ChainFetch.extractPath link with
            | Some path => extractByPath currentData path
            | None => Normal currentData
            end) as [extracted| |]; simpl; [|done..].
  destruct (apply_transform _ _ extracted) as [transformed| |] eqn:Ht; simpl;
    [|done..].
  intros H. exists extracted, transformed. split; [done|]. split; [done|].
  destruct (nonempty (ChainFetch.injectPath link)) as [path|].
  - destruct (injectAtPath _ path transformed) as [b| |]; simpl in H; [|done..].
    exists b. split; [done|]. congruence.
  - congruence.
Qed.

(** The request of a call after the first, in terms of the previous call. *)
Lemma chain_POST_call session fetch config sub accessToken i prev r req res step :
  nonempty (ChainFetch.getToken session) = Some sub →
  nonempty (ChainFetch.getValidAccessToken session sub) = Some accessToken →
  fst (ChainFetch.POST session fetch config) !! i = Some (prev, Normal r) →
  fst (ChainFetch.POST session fetch config) !! S i = Some (req, res) →
  ChainFetch.steps config !! S i = Some step →
  ChainFetch.prepare (ChainFetch.transforms config) (S i) (data r)
    (ChainFetch.authorize accessToken step) = Normal req.
Proof.
  intros Hsub Htok Hprev Hcall Hstep.
  destruct (chain_POST_run session fetch config _ _ Hsub Htok)
    as (out & Hrun & _).
  destruct (run_call _ _ _ _ _ _ _ _ _ _ Hrun Hcall) as (s & Hs & Hprep & _).
  rewrite list_lookup_fmap, Hstep in Hs. injection Hs as <-.
  simpl in Hprep. by rewrite Hprev in Hprep.
Qed.

(** C10.  In the chained route, when the call of step [i] returned a falsy
    body ([null], [false], [0], the empty string, [NaN] are falsy), the call
    of step [i+1] is made with the step as declared (and as authorized): no
    extraction, transform or injection takes place and its body is the
    declared body, whatever the links are. *)
Theorem falsy_body_skips_link :
  (∀ (session : ChainFetch.Session) (fetch : network)
     (config : ChainFetch.ChainedApiConfig) (sub accessToken : string)
     (i : nat) (prev req step : ApiRequestConfig) (r : ApiResponse)
     (res : completion ApiResponse),
     nonempty (ChainFetch.getToken session) = Some sub →
     nonempty (ChainFetch.getValidAccessToken session sub) = Some accessToken →
     fst (ChainFetch.POST session fetch config) !! i = Some (prev, Normal r) →
     truthy (data r) = false →
     fst (ChainFetch.POST session fetch config) !! S i = Some (req, res) →
     ChainFetch.steps config !! S i = Some step →
     req = ChainFetch.authorize accessToken step ∧ body req = body step)
  ∧ truthy JNull = false
  ∧ truthy (JBool false) = false
  ∧ truthy (JNum 0) = false
  ∧ truthy (JStr "") = false
  ∧ truthy (JNum nan) = false.
Proof.
  split; [|by vm_compute].
  intros session fetch config sub accessToken i prev req step r res
    Hsub Htok Hprev Hfalsy Hcall Hstep.
  pose proof (chain_POST_call _ _ _ _ _ _ _ _ _ _ _ Hsub Htok Hprev Hcall Hstep)
    as Hprep.
  unfold ChainFetch.prepare in Hprep. rewrite Hfalsy, andb_false_r in Hprep.
  assert (req = ChainFetch.authorize accessToken step) as ->
    by (destruct (_ ≫= _); congruence).
  split; [done|]. apply authorize_body.
Qed.

Lemma falsy_body_skips_link_witness :
  nonempty (ChainFetch.getToken signed_in) = Some "user-1"
  ∧ nonempty (ChainFetch.getValidAccessToken signed_in "user-1")
    = Some "token-1"
  ∧ fst (ChainFetch.POST signed_in
           (answers (json_response "null" JNull)
              (json_response done_text done_body))
           {| ChainFetch.steps := [ step_A; step_C ];
              ChainFetch.transforms := Some [ no_link; link_id ] |}) !! 0
    = Some (step_A, Normal (json_result JNull))
  ∧ truthy (data (json_result JNull)) = false
  ∧ fst (ChainFetch.POST signed_in
           (answers (json_response "null" JNull)
              (json_response done_text done_body))
           {| ChainFetch.steps := [ step_A; step_C ];
              ChainFetch.transforms := Some [ no_link; link_id ] |}) !! 1
    = Some (step_C, Normal (json_result done_body))
  ∧ step_C = ChainFetch.authorize "token-1" step_C
  ∧ body step_C = JObj [ ("q", JStr "keep") ].
Proof.
  repeat (split; [reflexivity|]).
  apply (proj1 falsy_body_skips_link signed_in
           (answers (json_response "null" JNull)
              (json_response done_text done_body))
           {| ChainFetch.steps := [ step_A; step_C ];
              ChainFetch.transforms := Some [ no_link; link_id ] |}
           "user-1" "token-1" 0 step_A step_C step_C (json_result JNull)
           (Normal (json_result done_body))); reflexivity.
Defined.





(** ** The single-hop route *)

(** A call of the single-hop route whose response is delivered with a 2xx
    status, decodes, and has a content the extractor returns. *)
Lemma open_makeApiCall_response fetch n config r d simplified :
  fetch n (fetch_request config) = inr r →
  ok r = true →
  decode (default "json" (responseType config)) r = Normal d →
  OpenFetch.extractMainContent d (fst (getContentType (response_headers r)))
  = Normal simplified →
  OpenFetch.makeApiCall fetch n config = Normal (response_of r d simplified).
Proof.
  intros Hf Hok Hd Hs. unfold OpenFetch.makeApiCall, response_of.
  rewrite Hf, Hok. simpl.
  destruct (getContentType (response_headers r)) as [type format].
  rewrite Hd. simpl in *. by rewrite Hs.
Qed.

(** C9, as the code has it.  In the single-hop route, when the first
    upstream response is delivered with a 2xx status, decodes, and has the
    simplified content [s1]: with [chainConfig.next], no [extractPath], no
    [injectPath] and the transform [identity] (named or by default), a
    second call is made, on [next] with [s1] as its whole body; what [fetch]
    is sent as body is [s1] when [s1] is truthy, and nothing when it is
    falsy.  When the second response is delivered with a 2xx status and
    decodes, the reply is the first response with the second as
    [chainedResponse]; when the second call fails, the reply is the 500 with
    its error.  Without [chainConfig.next] one call is made and the reply is
    the first response with no [chainedResponse]. *)
Theorem single_hop_chained_response
    (fetch : network) (config : OpenFetch.ChainedRequest)
    (r1 : Response) (d1 s1 : json) :
  fetch 0 (fetch_request (OpenFetch.request config)) = inr r1 →
  ok r1 = true →
  decode (default "json" (responseType (OpenFetch.request config))) r1
  = Normal d1 →
  OpenFetch.extractMainContent d1 (fst (getContentType (response_headers r1)))
  = Normal s1 →
  (∀ link nxt,
     OpenFetch.chainConfig config = Some link →
     OpenFetch.next link = Some nxt →
     OpenFetch.extractPath link = None →
     nonempty (OpenFetch.injectPath link) = None →
     default "identity" (OpenFetch.transformFn link) = "identity" →
     fst <$> fst (OpenFetch.POST fetch config)
     = [ OpenFetch.request config; with_body s1 nxt ]
     ∧ fst (OpenFetch.POST fetch config) !! 0
       = Some (OpenFetch.request config, Normal (response_of r1 d1 s1))
     ∧ fetch_request (with_body s1 nxt)
       = {| fetch_url := url nxt;
            fetch_query := params nxt;
            fetch_method := method nxt;
            fetch_headers :=
              <["Content-Type" := "application/json"]>
                (default ∅ (headers nxt));
            fetch_body := if truthy s1 then Some s1 else None |}
     ∧ (∀ r2 d2 s2,
          fetch 1 (fetch_request (with_body s1 nxt)) = inr r2 →
          ok r2 = true →
          decode (default "json" (responseType nxt)) r2 = Normal d2 →
          OpenFetch.extractMainContent d2
            (fst (getContentType (response_headers r2))) = Normal s2 →
          snd (OpenFetch.POST fetch config)
          = Normal (OpenFetch.Json200
                      {| OpenFetch.first := response_of r1 d1 s1;
                         OpenFetch.chainedResponse :=
                           Some (response_of r2 d2 s2) |}))
     ∧ (∀ e,
          fetch 1 (fetch_request (with_body s1 nxt)) = inl e →
          snd (OpenFetch.POST fetch config) = Normal (OpenFetch.Json500 e))
     ∧ (∀ r2,
          fetch 1 (fetch_request (with_body s1 nxt)) = inr r2 →
          ok r2 = false →
          snd (OpenFetch.POST fetch config)
          = Normal (OpenFetch.Json500
                      (HttpError (response_status r2)
                         (response_statusText r2) None))))
  ∧ (OpenFetch.chainConfig config ≫= OpenFetch.next = None →
     fst (OpenFetch.POST fetch config)
     = [ (OpenFetch.request config, Normal (response_of r1 d1 s1)) ]
     ∧ snd (OpenFetch.POST fetch config)
       = Normal (OpenFetch.Json200
                   {| OpenFetch.first := response_of r1 d1 s1;
                      OpenFetch.chainedResponse := None |})).
Proof.
  intros Hf Hok Hd Hs.
  pose proof (open_makeApiCall_response _ _ _ _ _ _ Hf Hok Hd Hs) as Hfirst.
  split.
  - intros link nxt Hlink Hnext Hextract Hinject Htransform.
    assert (Hreq : OpenFetch.next_config link (response_of r1 d1 s1) nxt
                   = Normal (with_body s1 nxt)).
    { unfold OpenFetch.next_config. by rewrite Hextract, Hinject, Htransform. }
    unfold OpenFetch.POST. rewrite Hfirst, Hlink. simpl. rewrite Hnext. simpl.
    rewrite Hreq. simpl.
    split; [done|]. split; [done|]. split; [done|]. split; [|split].
    + intros r2 d2 s2 Hf2 Hok2 Hd2 Hs2.
      by rewrite (open_makeApiCall_response fetch 1 (with_body s1 nxt) _ _ _
                    Hf2 Hok2 Hd2 Hs2).
    + intros e Hf2. unfold OpenFetch.makeApiCall. by rewrite Hf2.
    + intros r2 Hf2 Hok2. unfold OpenFetch.makeApiCall. by rewrite Hf2, Hok2.
  - intros Hnone. unfold OpenFetch.POST. rewrite Hfirst.
    destruct (OpenFetch.chainConfig config) as [link|]; simpl in *; [|done].
    by rewrite Hnone.
Qed.

Lemma single_hop_chained_response_witness :
  answers (json_response chat_text chat_body)
    (json_response done_text done_body) 0
    (fetch_request (OpenFetch.request hop_request))
  = inr (json_response chat_text chat_body)
  ∧ ok (json_response chat_text chat_body) = true
  ∧ decode (default "json" (responseType (OpenFetch.request hop_request)))
      (json_response chat_text chat_body) = Normal chat_body
  ∧ OpenFetch.extractMainContent chat_body
      (fst (getContentType
              (response_headers (json_response chat_text chat_body))))
    = Normal (JStr "hi")
  ∧ fst <$> fst (OpenFetch.POST
                   (answers (json_response chat_text chat_body)
                      (json_response done_text done_body))
                   hop_request)
    = [ OpenFetch.request hop_request; with_body (JStr "hi") step_B ]
  ∧ fetch_body (fetch_request (with_body (JStr "hi") step_B))
    = Some (JStr "hi")
  ∧ snd (OpenFetch.POST
           (answers (json_response chat_text chat_body)
              (json_response done_text done_body))
           hop_request)
    = Normal (OpenFetch.Json200
                {| OpenFetch.first :=
                     response_of (json_response chat_text chat_body) chat_body
                       (JStr "hi");
                   OpenFetch.chainedResponse :=
                     Some (response_of (json_response done_text done_body)
                             done_body done_body) |}).
Proof.
  repeat (split; [reflexivity|]).
  exact (proj1 (proj2 (proj2 (proj2
    (proj1
       (single_hop_chained_response
          (answers (json_response chat_text chat_body)
             (json_response done_text done_body))
          hop_request (json_response chat_text chat_body) chat_body (JStr "hi")
          eq_refl eq_refl eq_refl eq_refl)
       _ step_B eq_refl eq_refl eq_refl eq_refl eq_refl))))
    (json_response done_text done_body) done_body done_body
    eq_refl eq_refl eq_refl eq_refl).
Defined.

(** C9 as the specification words it fails: a first response whose
    simplified content is [0] is followed by a second call whose request
    carries no body at all, not the content. *)
Lemma follow_up_without_body :
  fst (OpenFetch.POST
         (answers (json_response "0" (JNum 0))
            (json_response done_text done_body))
         hop_request) !! 0
  = Some (OpenFetch.request hop_request,
          Normal (response_of (json_response "0" (JNum 0)) (JNum 0) (JNum 0)))
  ∧ fst <$> fst (OpenFetch.POST
                   (answers (json_response "0" (JNum 0))
                      (json_response done_text done_body))
                   hop_request)
    = [ OpenFetch.request hop_request; with_body (JNum 0) step_B ]
  ∧ fetch_body (fetch_request (with_body (JNum 0) step_B)) = None
  ∧ fetch_body (fetch_request (with_body (JNum 0) step_B)) ≠ Some (JNum 0).
Proof. split; [reflexivity|]. split; [reflexivity|]. by split. Qed.

(** * Further properties of the routes *)

(** ** Reading along a path *)

Lemma extractByPath_nil d : extractByPath d [] = Normal d.
Proof. done. Qed.

(** Below [undefined] everything is [undefined]. *)
Lemma extractByPath_undef path : extractByPath JUndef path = Normal JUndef.
Proof.
  induction path as [|k path IH]; [done|]. by rewrite extractByPath_cons.
Qed.

(** X1.  [extractByPath] never throws on data keys: along a path whose keys
    name no built-in member it returns a value for every input, and when the
    first key is missing from a mapping that value is [undefined], whatever
    follows in the path. *)
Theorem extractByPath_never_throws (d : json) (path : list string) :
  forallb data_key path = true →
  (∃ v, extractByPath d path = Normal v)
  ∧ (∀ fs k rest,
       d = JObj fs → path = k :: rest → get_field k fs = None →
       extractByPath d path = Normal JUndef).
Proof.
  intros Hkeys. split.
  - revert d. induction path as [|k path IH]; intros d; [by eexists|].
    apply forallb_cons_true in Hkeys as [Hk Hpath].
    rewrite extractByPath_cons.
    destruct (get_opt_data_key d k Hk) as [x ->]. simpl. by apply IH.
  - intros fs k rest -> -> Hget.
    apply forallb_cons_true in Hkeys as [Hk _].
    rewrite extractByPath_cons. simpl. rewrite Hget.
    rewrite (inherited_data_key _ _ Hk). simpl. apply extractByPath_undef.
Qed.

Lemma extractByPath_never_throws_witness :
  forallb data_key [ "c"; "d" ] = true
  ∧ extractByPath (JObj [ ("a", JObj [ ("b", JNum 1) ]) ]) [ "c"; "d" ]
    = Normal JUndef.
Proof.
  split; [reflexivity|].
  exact (proj2 (extractByPath_never_throws
                  (JObj [ ("a", JObj [ ("b", JNum 1) ]) ]) [ "c"; "d" ] eq_refl)
           _ "c" [ "d" ] eq_refl eq_refl eq_refl).
Defined.

(** X2.  Reading along a concatenated path is reading along the first part
    and then, from the value found, along the second. *)
Theorem extractByPath_app (d : json) (p q : list string) :
  extractByPath d (p ++ q)
  = extractByPath d p ≫= λ a, extractByPath a q.
Proof.
  revert d. induction p as [|k p IH]; intros d; [done|].
  rewrite <- app_comm_cons, !extractByPath_cons.
  destruct (get_opt d k) as [a| |]; simpl; [apply IH|done..].
Qed.

(** ** Writing along a path *)

Lemma get_field_set_field_ne k k' v fs :
  k ≠ k' → get_field k (set_field k' v fs) = get_field k fs.
Proof.
  intros Hne. unfold set_field. destruct (has_field k' fs).
  - induction fs as [|[k0 v0] fs IH]; simpl; [done|].
    destruct (String.eqb_spec k' k0) as [->|]; simpl.
    + by destruct (String.eqb_spec k k0).
    + by rewrite IH.
  - induction fs as [|[k0 v0] fs IH]; simpl.
    + by destruct (String.eqb_spec k k').
    + destruct (listed_before k' k0); simpl.
      * by destruct (String.eqb_spec k k').
      * by rewrite IH.
Qed.

Lemma keys_update_field k v fs : fst <$> update_field k v fs = fst <$> fs.
Proof.
  induction fs as [|[k0 v0] fs IH]; simpl; [done|].
  destruct (String.eqb_spec k k0) as [->|]; simpl; [done|].
  change (list_fmap _ _ fst ?l) with (fst <$> l) in *. by rewrite IH.
Qed.

Lemma keys_add_field k v fs : fst <$> add_field k v fs = add_key k (fst <$> fs).
Proof.
  induction fs as [|[k0 v0] fs IH]; simpl; [done|].
  destruct (listed_before k k0); simpl; [done|].
  change (list_fmap _ _ fst ?l) with (fst <$> l) in *. by rewrite IH.
Qed.

Lemma keys_set_field k v fs :
  fst <$> set_field k v fs
  = if has_field k fs then fst <$> fs else add_key k (fst <$> fs).
Proof.
  unfold set_field. destruct (has_field k fs).
  - apply keys_update_field.
  - apply keys_add_field.
Qed.

(** A key that is not an array index is listed last. *)
Lemma add_key_last k ks : array_index k = None → add_key k ks = (ks ++ [ k ])%list.
Proof.
  intros Hk. induction ks as [|k' ks IH]; simpl; [done|].
  unfold listed_before. rewrite Hk. by rewrite IH.
Qed.

Lemma first_key_parts p :
  first_key p
  = match removelast (split "." p) with
    | [] => List.last (split "." p) ""
    | part :: _ => part
    end.
Proof.
  unfold first_key. pose proof (split_nonempty "." p) as Hne.
  destruct (split "." p) as [|a [|b l]]; done.
Qed.

(** One level of a walkable walk, with the node it goes on in. *)
Lemma inject_walk_child fs part parts lastPart :
  walkable (JObj fs) (part :: parts) lastPart = true →
  walkable (walk_child fs part) parts lastPart = true
  ∧ ∀ v, inject_walk (JObj fs) (part :: parts) lastPart v
         = (inject_walk (walk_child fs part) parts lastPart v
              ≫= λ child', Normal (JObj (set_field part child' fs))).
Proof.
  unfold walk_child. cbn [walkable inject_walk get_prop].
  destruct (get_field part fs) as [child|] eqn:Hget.
  - assert (Hown : has_field part fs = true) by (unfold has_field; by rewrite Hget).
    cbn [mbind completion_bind]. destruct (truthy child).
    + intros Hw. split; [done|]. intros v.
      destruct (inject_walk child parts lastPart v) as [child'| |];
        cbn [mbind completion_bind]; [|done..].
      rewrite set_prop_mapping by (rewrite Hown; apply orb_true_r). done.
    + intros Hw. split; [done|]. intros v.
      rewrite set_prop_mapping by (rewrite Hown; apply orb_true_r).
      cbn [mbind completion_bind].
      destruct (inject_walk (JObj []) parts lastPart v) as [child'| |];
        cbn [mbind completion_bind]; [|done..].
      rewrite set_prop_mapping, set_set_field; [done|].
      unfold has_field. rewrite get_set_field. apply orb_true_r.
  - intros [Hm Hw]%andb_true_iff. apply negb_true_iff in Hm.
    split; [done|]. intros v.
    unfold inherited. simpl builtin_members. simpl mem at 1. rewrite Hm.
    cbn [orb mbind completion_bind truthy].
    rewrite set_prop_mapping by (by rewrite (proto_is_member _ Hm)).
    cbn [mbind completion_bind].
    destruct (inject_walk (JObj []) parts lastPart v) as [child'| |];
      cbn [mbind completion_bind]; [|done..].
    rewrite set_prop_mapping by (by rewrite (proto_is_member _ Hm)).
    by rewrite set_set_field.
Qed.

(** X3.  [injectAtPath] leaves the rest of the mapping alone: on a walkable
    path the result is a mapping in which every key other than the first
    segment of the path holds what it held, and the keys are listed as they
    were, the first segment being added when it was missing: last when it
    is not an array index, and otherwise among the indices, which are listed
    first in ascending order. *)
Theorem injectAtPath_keeps_other_keys
    (fs : list (string * json)) (p : string) (v : json) :
  walkable (JObj fs) (removelast (split "." p)) (List.last (split "." p) "")
  = true →
  ∃ fs', injectAtPath (JObj fs) p v = Normal (JObj fs')
    ∧ (∀ k, k ≠ first_key p → get_field k fs' = get_field k fs)
    ∧ fst <$> fs'
      = (if has_field (first_key p) fs then fst <$> fs
         else add_key (first_key p) (fst <$> fs))
    ∧ (array_index (first_key p) = None →
       add_key (first_key p) (fst <$> fs)
       = ((fst <$> fs) ++ [ first_key p ])%list).
Proof.
  unfold injectAtPath. rewrite first_key_parts.
  destruct (removelast (split "." p)) as [|part parts]; intros Hw.
  - cbn [inject_walk]. rewrite (set_prop_mapping _ _ _ Hw). eexists.
    split; [done|]. split; [|split; [apply keys_set_field|apply add_key_last]].
    intros k Hk. by apply get_field_set_field_ne.
  - destruct (inject_walk_step _ _ _ _ v Hw) as (child & child' & _ & _ & ->).
    eexists. split; [done|].
    split; [|split; [apply keys_set_field|apply add_key_last]].
    intros k Hk. by apply get_field_set_field_ne.
Qed.

Lemma injectAtPath_keeps_other_keys_witness :
  walkable (JObj [ ("q", JStr "keep"); ("n", JNum 0) ])
    (removelast (split "." "7.id")) (List.last (split "." "7.id") "") = true
  ∧ injectAtPath (JObj [ ("q", JStr "keep"); ("n", JNum 0) ]) "7.id"
      (JStr "x1")
    = Normal (JObj [ ("7", JObj [ ("id", JStr "x1") ]); ("q", JStr "keep");
                     ("n", JNum 0) ])
  ∧ ∃ fs', injectAtPath (JObj [ ("q", JStr "keep"); ("n", JNum 0) ]) "7.id"
             (JStr "x1") = Normal (JObj fs')
      ∧ get_field "q" fs' = Some (JStr "keep")
      ∧ fst <$> fs' = [ "7"; "q"; "n" ].
Proof.
  split; [reflexivity|]. split; [reflexivity|].
  destruct (injectAtPath_keeps_other_keys
              [ ("q", JStr "keep"); ("n", JNum 0) ] "7.id" (JStr "x1") eq_refl)
    as (fs' & Hinj & Hother & Hkeys & _).
  exists fs'. split; [exact Hinj|]. split.
  - by rewrite (Hother "q").
  - exact Hkeys.
Defined.

(** The result of a walkable walk is a mapping. *)
Lemma inject_walk_mapping parts m lastPart v m' :
  walkable m parts lastPart = true →
  inject_walk m parts lastPart v = Normal m' →
  ∃ fs', m' = JObj fs'.
Proof.
  intros Hw Hm'. destruct (inject_walk_nodes _ _ _ _ _ 0 Hw Hm') as [fs' Hfs'].
  exists fs'. rewrite take_0 in Hfs'. by injection Hfs'.
Qed.

(** Walking a path a second time goes through the nodes the first walk
    left, and ends where a single walk would. *)
Lemma inject_walk_again parts : ∀ m lastPart v w m1,
  walkable m parts lastPart = true →
  inject_walk m parts lastPart v = Normal m1 →
  walkable m1 parts lastPart = true
  ∧ inject_walk m1 parts lastPart w = inject_walk m parts lastPart w.
Proof.
  induction parts as [|part parts IH]; intros m lastPart v w m1;
    destruct m as [| | | | | |fs|]; try done.
  - intros Hw. cbn [inject_walk]. rewrite !(set_prop_mapping _ _ _ Hw).
    intros [= <-].
    assert (Hown : has_field lastPart (set_field lastPart v fs) = true)
      by (unfold has_field; by rewrite get_set_field).
    split; [cbn [walkable]; rewrite Hown; apply orb_true_r|].
    rewrite set_prop_mapping by (rewrite Hown; apply orb_true_r).
    by rewrite set_set_field.
  - intros Hw. destruct (inject_walk_child _ _ _ _ Hw) as [Hwc Heq].
    rewrite !Heq.
    destruct (inject_walk (walk_child fs part) parts lastPart v)
      as [child'| |] eqn:Hv; cbn [mbind completion_bind]; [|done..].
    intros [= <-].
    destruct (IH _ _ _ w _ Hwc Hv) as [Hwc' Hagain].
    destruct (inject_walk_mapping _ _ _ _ _ Hwc Hv) as [fs' ->].
    assert (Hw1 : walkable (JObj (set_field part (JObj fs') fs))
                    (part :: parts) lastPart = true)
      by (cbn [walkable]; by rewrite get_set_field).
    split; [exact Hw1|].
    destruct (inject_walk_child _ _ _ _ Hw1) as [_ Heq1]. rewrite Heq1.
    unfold walk_child at 1. rewrite get_set_field. cbn [truthy].
    rewrite Hagain.
    destruct (inject_walk (walk_child fs part) parts lastPart w);
      cbn [mbind completion_bind]; [|done..].
    by rewrite set_set_field.
Qed.

(** X4.  The last write wins: on a walkable path, injecting [w] where [v]
    was injected before gives the mapping that injecting [w] alone gives,
    and [w] is what is then found at the path. *)
Theorem injectAtPath_overwrites (m : json) (p : string) (v w : json) :
  walkable m (removelast (split "." p)) (List.last (split "." p) "") = true →
  ∃ m1 m2,
    injectAtPath m p v = Normal m1
    ∧ injectAtPath m1 p w = Normal m2
    ∧ injectAtPath m p w = Normal m2
    ∧ extractByPath m2 (split "." p) = Normal w.
Proof.
  intros Hw. unfold injectAtPath.
  destruct (inject_walk_total _ _ _ v Hw) as [m1 Hm1].
  destruct (inject_walk_total _ _ _ w Hw) as [m2 Hm2].
  destruct (inject_walk_again _ _ _ _ w _ Hw Hm1) as [_ Hagain].
  exists m1, m2. rewrite Hagain. repeat split; try done.
  by apply (extract_injectAtPath m p).
Qed.

Lemma injectAtPath_overwrites_witness :
  walkable (JObj [ ("q", JStr "keep") ]) (removelast (split "." "a.b"))
    (List.last (split "." "a.b") "") = true
  ∧ ∃ m1 m2,
      injectAtPath (JObj [ ("q", JStr "keep") ]) "a.b" (JNum 1) = Normal m1
      ∧ injectAtPath m1 "a.b" (JStr "x") = Normal m2
      ∧ injectAtPath (JObj [ ("q", JStr "keep") ]) "a.b" (JStr "x") = Normal m2
      ∧ extractByPath m2 (split "." "a.b") = Normal (JStr "x").
Proof.
  split; [reflexivity|].
  apply (injectAtPath_overwrites (JObj [ ("q", JStr "keep") ]) "a.b"
           (JNum 1) (JStr "x")).
  reflexivity.
Defined.

(** X5.  A step whose declared body is a truthy primitive (a non-empty
    string, a non-zero number, [true]) cannot receive an injection: along a
    path of data keys [injectAtPath] throws a TypeError, and so does the
    chained route when it applies a link that only injects at that path, and
    the single-hop route when it builds such a follow-up request. *)
Theorem inject_into_primitive_body
    (step : ApiRequestConfig) (path : string) (value : json) :
  is_primitive (body step) = true →
  truthy (body step) = true →
  forallb data_key (split "." path) = true →
  (∃ msg, injectAtPath (js_or (body step) (JObj [])) path value
          = Throw (TypeError msg))
  ∧ (∀ link currentData,
       nonempty (ChainFetch.injectPath link) = Some path →
       ChainFetch.extractPath link = None →
       ChainFetch.transformFn link = None →
       ∃ msg, ChainFetch.apply_link link currentData step
              = Throw (TypeError msg))
  ∧ (∀ link response,
       nonempty (OpenFetch.injectPath link) = Some path →
       OpenFetch.extractPath link = None →
       OpenFetch.transformFn link = None →
       ∃ msg, OpenFetch.next_config link response step
              = Throw (TypeError msg)).
Proof.
  intros Hprim Htruthy Hkeys.
  assert (Hinj : ∀ v, ∃ msg, injectAtPath (js_or (body step) (JObj [])) path v
                             = Throw (TypeError msg)).
  { intros v. unfold js_or, injectAtPath. rewrite Htruthy.
    apply inject_walk_primitive; [done|].
    rewrite (split_removelast_last "." path), forallb_app in Hkeys.
    by apply andb_true_iff in Hkeys as [? _]. }
  split; [apply Hinj|]. split.
  - intros link cd Hpath Hextract Htransform. unfold ChainFetch.apply_link.
    rewrite Hextract, Htransform, Hpath. simpl.
    destruct (Hinj cd) as [msg ->]. simpl. eauto.
  - intros link r Hpath Hextract Htransform. unfold OpenFetch.next_config.
    rewrite Hextract, Htransform, Hpath. simpl.
    destruct (Hinj (simplifiedContent r)) as [msg ->]. simpl. eauto.
Qed.

Lemma inject_into_primitive_body_witness :
  is_primitive (body (with_body (JStr "plain text") step_B)) = true
  ∧ truthy (body (with_body (JStr "plain text") step_B)) = true
  ∧ forallb data_key (split "." "meta.id") = true
  ∧ ∃ msg, injectAtPath
             (js_or (body (with_body (JStr "plain text") step_B)) (JObj []))
             "meta.id" (JStr "x1")
           = Throw (TypeError msg).
Proof.
  repeat (split; [reflexivity|]).
  apply (inject_into_primitive_body (with_body (JStr "plain text") step_B)
           "meta.id" (JStr "x1")); reflexivity.
Defined.

(** ** The content extractor on other bodies and kinds *)

(** X6.  For the kinds image, audio, video and binary the extractor wraps
    the body in a descriptor whose [size] is the length of a text body and
    is [undefined] for a Blob or an ArrayBuffer, and whose [format] is
    [undefined] for all of them (it is read from the body, not from the
    classified format); on a [null] or [undefined] body it throws. *)
Theorem payload_descriptor :
  Forall (λ type,
    (∀ s, OpenFetch.extractMainContent (JStr s) type
          = Normal (descriptor type (JStr s) (js_length (String.length s))
                      JUndef))
    ∧ (∀ k bytes, OpenFetch.extractMainContent (JBin k bytes) type
                  = Normal (descriptor type (JBin k bytes) JUndef JUndef))
    ∧ (∃ msg, OpenFetch.extractMainContent JNull type = Throw (TypeError msg))
    ∧ (∃ msg, OpenFetch.extractMainContent JUndef type
              = Throw (TypeError msg)))
    [ Image; Audio; Video; Binary ].
Proof.
  repeat constructor; try (by intros [] ?); try (by eexists).
Qed.

(** X7.  The heuristics of the json kind fire on mappings only: a body that
    is an array, a string, a number, a boolean, [null] or a binary container
    is returned unchanged. *)
Theorem json_extraction_only_on_mappings (d : json) :
  is_mapping d = false →
  OpenFetch.extractMainContent d Json = Normal d.
Proof. destruct d as [| | | | | | |[]]; intros H; try done; reflexivity. Qed.

Lemma json_extraction_only_on_mappings_witness :
  is_mapping (JArr [ JObj [ ("content", JStr "first") ] ]) = false
  ∧ OpenFetch.extractMainContent
      (JArr [ JObj [ ("content", JStr "first") ] ]) Json
    = Normal (JArr [ JObj [ ("content", JStr "first") ] ]).
Proof.
  split; [reflexivity|].
  by apply (json_extraction_only_on_mappings
              (JArr [ JObj [ ("content", JStr "first") ] ])).
Defined.

(** ** The registered transforms *)

(** X8.  [extractOpenAIText] never fails: it returns the nested message
    content when that is truthy and its input otherwise, and whenever it
    returns the content it agrees with the json extractor of the single-hop
    route. *)
Theorem extractOpenAIText_total (d : json) :
  ∃ chat,
    chat_content d = Normal chat
    ∧ extractOpenAIText d = Normal (if truthy chat then chat else d)
    ∧ (truthy chat = true →
       OpenFetch.extractMainContent d Json = extractOpenAIText d).
Proof.
  destruct (chat_content_normal d) as [chat Hchat]. exists chat.
  unfold extractOpenAIText, OpenFetch.extractMainContent, js_or.
  rewrite Hchat. simpl. repeat split. by intros ->.
Qed.

(** X9.  The two routes resolve every transform name alike, except
    [textToSpeechPayload], for which the chained route builds
    [{model: "tts-1", voice: "alloy", input: text}] and the single-hop
    route [{input: {text}, voice: "alloy", model: "tts-1"}]: the text is
    found at [input] in the one and at [input.text] in the other. *)
Theorem registries_agree (name : string) (d : json) :
  name ≠ "textToSpeechPayload" →
  apply_transform ChainFetch.transformFunctions (Some name) d
  = apply_transform OpenFetch.transformFunctions (Some name) d
  ∧ apply_transform ChainFetch.transformFunctions
      (Some "textToSpeechPayload") d
    = Normal (JObj [ ("model", JStr "tts-1"); ("voice", JStr "alloy");
                     ("input", d) ])
  ∧ apply_transform OpenFetch.transformFunctions
      (Some "textToSpeechPayload") d
    = Normal (JObj [ ("input", JObj [ ("text", d) ]);
                     ("voice", JStr "alloy"); ("model", JStr "tts-1") ])
  ∧ extractByPath (JObj [ ("model", JStr "tts-1"); ("voice", JStr "alloy");
                          ("input", d) ]) [ "input" ]
    = Normal d
  ∧ extractByPath (JObj [ ("input", JObj [ ("text", d) ]);
                          ("voice", JStr "alloy"); ("model", JStr "tts-1") ])
      [ "input"; "text" ]
    = Normal d
  ∧ extractByPath (JObj [ ("input", JObj [ ("text", d) ]);
                          ("voice", JStr "alloy"); ("model", JStr "tts-1") ])
      [ "input" ]
    = Normal (JObj [ ("text", d) ]).
Proof.
  intros Hname. split; [|by repeat split].
  unfold apply_transform, lookup_transform. simpl.
  destruct (String.eqb_spec name "textToSpeechPayload"); done.
Qed.

Lemma registries_agree_witness :
  "extractOpenAIText" ≠ "textToSpeechPayload"
  ∧ apply_transform ChainFetch.transformFunctions (Some "extractOpenAIText")
      chat_body
    = apply_transform OpenFetch.transformFunctions (Some "extractOpenAIText")
        chat_body
  ∧ apply_transform ChainFetch.transformFunctions
      (Some "textToSpeechPayload") chat_body
    = Normal (JObj [ ("model", JStr "tts-1"); ("voice", JStr "alloy");
                     ("input", chat_body) ]).
Proof.
  split; [done|]. split.
  - exact (proj1 (registries_agree "extractOpenAIText" chat_body
                    ltac:(done))).
  - exact (proj1 (proj2 (registries_agree "extractOpenAIText" chat_body
                           ltac:(done)))).
Defined.

(** ** The follow-up request of the single-hop route *)

(** X10.  The follow-up request reads the first response through one
    member only: with an extract path it depends on the raw body ([data])
    and not on the simplified content, without one on the simplified
    content and not on the raw body. *)
Theorem follow_up_reads_one_member
    (link : OpenFetch.ChainConfig) (r r' : ApiResponse) (nxt : ApiRequestConfig) :
  match OpenFetch.extractPath link with
  | Some _ => data r = data r'
  | None => simplifiedContent r = simplifiedContent r'
  end →
  OpenFetch.next_config link r nxt = OpenFetch.next_config link r' nxt.
Proof.
  unfold OpenFetch.next_config.
  destruct (OpenFetch.extractPath link); by intros ->.
Qed.

Lemma follow_up_reads_one_member_witness :
  data (json_result chat_body)
  = data {| data := chat_body; status := 200; statusText := "OK";
            responseHeaders := ∅; simplifiedContent := JStr "hi";
            contentType := Json; contentFormat := None |}
  ∧ OpenFetch.next_config
      {| OpenFetch.next := Some step_B;
         OpenFetch.extractPath := Some [ "choices"; "0" ];
         OpenFetch.injectPath := None; OpenFetch.transformFn := None |}
      (json_result chat_body) step_B
    = OpenFetch.next_config
        {| OpenFetch.next := Some step_B;
           OpenFetch.extractPath := Some [ "choices"; "0" ];
           OpenFetch.injectPath := None; OpenFetch.transformFn := None |}
        {| data := chat_body; status := 200; statusText := "OK";
           responseHeaders := ∅; simplifiedContent := JStr "hi";
           contentType := Json; contentFormat := None |}
        step_B.
Proof.
  split; [reflexivity|].
  by apply (follow_up_reads_one_member
              {| OpenFetch.next := Some step_B;
                 OpenFetch.extractPath := Some [ "choices"; "0" ];
                 OpenFetch.injectPath := None; OpenFetch.transformFn := None |}).
Defined.

(** ** What the chained route sends and returns *)

(** X11.  What [fetch] receives for a step of the chained route: the
    [Content-Type] header is always [application/json], whatever the caller
    set under that name; a step whose URL mentions the provider carries the
    bearer token, whatever the caller set as [Authorization]; every other
    header of the caller goes through unchanged; the URL, the method and the
    query parameters are the step's; and a body is sent exactly when the
    step's body is truthy. *)
Theorem fetch_receives (accessToken : string) (step : ApiRequestConfig) :
  fetch_headers (fetch_request (ChainFetch.authorize accessToken step))
    !! "Content-Type" = Some "application/json"
  ∧ (includes (url step) "api.openai.com" = true →
     fetch_headers (fetch_request (ChainFetch.authorize accessToken step))
       !! "Authorization" = Some ("Bearer " ++ accessToken))
  ∧ (∀ name,
       name ≠ "Content-Type" →
       name ≠ "Authorization" ∨ includes (url step) "api.openai.com" = false →
       fetch_headers (fetch_request (ChainFetch.authorize accessToken step))
         !! name = default ∅ (headers step) !! name)
  ∧ fetch_url (fetch_request (ChainFetch.authorize accessToken step)) = url step
  ∧ fetch_method (fetch_request (ChainFetch.authorize accessToken step))
    = method step
  ∧ fetch_query (fetch_request (ChainFetch.authorize accessToken step))
    = params step
  ∧ fetch_body (fetch_request (ChainFetch.authorize accessToken step))
    = (if truthy (body step) then Some (body step) else None).
Proof.
  unfold ChainFetch.authorize, fetch_request.
  destruct (includes (url step) "api.openai.com"); simpl.
  - split; [by rewrite lookup_insert_eq|]. split.
    { intros _. by rewrite lookup_insert_ne, lookup_insert_eq. }
    split; [|done]. intros name Hct [Hauth|]; [|done].
    by rewrite !lookup_insert_ne.
  - split; [by rewrite lookup_insert_eq|]. split; [done|].
    split; [|done]. intros name Hct _. by rewrite lookup_insert_ne.
Qed.

Lemma fetch_receives_witness :
  includes (url {| url := "https://api.openai.com/v1/audio/speech";
                   method := "POST";
                   headers := Some {[ "Authorization" := "Bearer mine";
                                      "Content-Type" := "text/plain";
                                      "X-Trace" := "7" ]};
                   body := JNum 0; params := None; responseType := None |})
    "api.openai.com" = true
  ∧ fetch_headers
      (fetch_request
         (ChainFetch.authorize "token-1"
            {| url := "https://api.openai.com/v1/audio/speech";
               method := "POST";
               headers := Some {[ "Authorization" := "Bearer mine";
                                  "Content-Type" := "text/plain";
                                  "X-Trace" := "7" ]};
               body := JNum 0; params := None; responseType := None |}))
      !! "Authorization" = Some ("Bearer " ++ "token-1").
Proof.
  split; [reflexivity|].
  apply (proj1 (proj2 (fetch_receives "token-1" _))). reflexivity.
Defined.

(** X12.  The chained route makes no outbound call without an access token:
    without a session subject it replies 401 ["Authentication required"],
    with a subject and no stored token 401
    ["Failed to get valid access token"], in both cases with no call; and
    whenever a call was made there were a subject and a non-empty token. *)
Theorem no_call_without_token
    (session : ChainFetch.Session) (fetch : network)
    (config : ChainFetch.ChainedApiConfig) :
  (nonempty (ChainFetch.getToken session) = None →
   ChainFetch.POST session fetch config
   = ([], Normal (ChainFetch.Json401 "Authentication required")))
  ∧ (∀ sub,
       nonempty (ChainFetch.getToken session) = Some sub →
       nonempty (ChainFetch.getValidAccessToken session sub) = None →
       ChainFetch.POST session fetch config
       = ([], Normal (ChainFetch.Json401 "Failed to get valid access token")))
  ∧ (fst (ChainFetch.POST session fetch config) ≠ [] →
     ∃ sub accessToken,
       ChainFetch.getToken session = Some sub ∧ sub ≠ ""
       ∧ ChainFetch.getValidAccessToken session sub = Some accessToken
       ∧ accessToken ≠ "").
Proof.
  assert (Hne : ∀ o x, nonempty o = Some x → o = Some x ∧ x ≠ "").
  { intros [y|] x; simpl; [|done]. destruct (String.eqb_spec y ""); [done|].
    by intros [= <-]. }
  unfold ChainFetch.POST. split; [by intros ->|]. split.
  - by intros sub -> ->.
  - destruct (nonempty (ChainFetch.getToken session)) as [sub|] eqn:Hsub;
      [|done].
    destruct (nonempty (ChainFetch.getValidAccessToken session sub))
      as [accessToken|] eqn:Htok; [|done].
    intros _. destruct (Hne _ _ Hsub), (Hne _ _ Htok). by exists sub, accessToken.
Qed.

Lemma no_call_without_token_witness :
  nonempty (ChainFetch.getToken
              {| ChainFetch.getToken := Some "";
                 ChainFetch.getValidAccessToken := λ _, Some "token-1" |})
  = None
  ∧ ChainFetch.POST
      {| ChainFetch.getToken := Some "";
         ChainFetch.getValidAccessToken := λ _, Some "token-1" |}
      (answers (json_response item_text item_body) error_response)
      {| ChainFetch.steps := [ step_A ]; ChainFetch.transforms := None |}
    = ([], Normal (ChainFetch.Json401 "Authentication required")).
Proof.
  split; [reflexivity|].
  apply (proj1 (no_call_without_token _ _ _)). reflexivity.
Defined.

(** A prepared step is the declared step with, at most, another body. *)
Lemma prepare_body_only transforms i currentData step req :
  ChainFetch.prepare transforms i currentData step = Normal req →
  req = with_body (body req) step.
Proof.
  assert (Hid : step = with_body (body step) step) by (by destruct step).
  unfold ChainFetch.prepare.
  destruct (transforms ≫= (.!! i)) as [link|]; [|by intros [= <-]].
  destruct (_ && _); [|by intros [= <-]].
  intros (e & t & _ & _ & Hinj)%apply_link_normal.
  destruct (nonempty (ChainFetch.injectPath link)).
  - by destruct Hinj as (b & _ & ->).
  - by subst.
Qed.

(** X13.  A link can change the body of a step and nothing else: every
    call of the chained route is made on the step at its position, as
    authorized, with possibly another body; the first call, and every call
    when [transforms] is absent, is made on the step exactly as declared and
    authorized.  The outcome of the call at position [k] is that of
    [makeApiCall] as the [k]-th call. *)
Theorem links_only_change_bodies
    (session : ChainFetch.Session) (fetch : network)
    (config : ChainFetch.ChainedApiConfig) (sub accessToken : string)
    (k : nat) (req : ApiRequestConfig) (res : completion ApiResponse) :
  nonempty (ChainFetch.getToken session) = Some sub →
  nonempty (ChainFetch.getValidAccessToken session sub) = Some accessToken →
  fst (ChainFetch.POST session fetch config) !! k = Some (req, res) →
  ∃ step,
    ChainFetch.steps config !! k = Some step
    ∧ req = with_body (body req) (ChainFetch.authorize accessToken step)
    ∧ (k = 0 → req = ChainFetch.authorize accessToken step)
    ∧ (ChainFetch.transforms config = None →
       req = ChainFetch.authorize accessToken step)
    ∧ res = ChainFetch.makeApiCall fetch k req.
Proof.
  intros Hsub Htok Hcall.
  destruct (chain_POST_run session fetch config _ _ Hsub Htok)
    as (out & Hrun & _).
  destruct (run_call _ _ _ _ _ _ _ _ _ _ Hrun Hcall) as (s & Hs & Hprep & Hres).
  rewrite list_lookup_fmap in Hs.
  destruct (ChainFetch.steps config !! k) as [step|]; [|done].
  injection Hs as <-. exists step. split; [done|].
  split; [by eapply prepare_body_only|]. split; [|split; [|done]].
  - intros ->. unfold ChainFetch.prepare in Hprep. simpl in Hprep.
    destruct (_ ≫= _); congruence.
  - intros Hnone. unfold ChainFetch.prepare in Hprep. rewrite Hnone in Hprep.
    simpl in Hprep. congruence.
Qed.

Lemma links_only_change_bodies_witness :
  nonempty (ChainFetch.getToken signed_in) = Some "user-1"
  ∧ nonempty (ChainFetch.getValidAccessToken signed_in "user-1")
    = Some "token-1"
  ∧ fst (ChainFetch.POST signed_in
           (answers (json_response item_text item_body)
              (json_response done_text done_body))
           {| ChainFetch.steps := [ step_A; step_B ];
              ChainFetch.transforms := Some [ link_id; link_id ] |}) !! 1
    = Some (with_body (JObj [ ("relatedId", JStr "x1") ]) step_B,
            Normal (json_result done_body))
  ∧ ∃ step,
      [ step_A; step_B ] !! 1 = Some step
      ∧ with_body (JObj [ ("relatedId", JStr "x1") ]) step_B
        = with_body (JObj [ ("relatedId", JStr "x1") ])
            (ChainFetch.authorize "token-1" step).
Proof.
  repeat (split; [reflexivity|]).
  destruct (links_only_change_bodies signed_in
              (answers (json_response item_text item_body)
                 (json_response done_text done_body))
              {| ChainFetch.steps := [ step_A; step_B ];
                 ChainFetch.transforms := Some [ link_id; link_id ] |}
              "user-1" "token-1" 1
              (with_body (JObj [ ("relatedId", JStr "x1") ]) step_B)
              (Normal (json_result done_body)) eq_refl eq_refl eq_refl)
    as (step & Hstep & Hreq & _).
  exists step. split; [exact Hstep|exact Hreq].
Defined.

(** A response of [makeApiCall] of the chained route, read back: the
    upstream response it reports. *)
Lemma chain_makeApiCall_normal fetch n config resp :
  ChainFetch.makeApiCall fetch n config = Normal resp →
  ∃ r, fetch n (fetch_request config) = inr r
    ∧ ok r = true
    ∧ decode (default "json" (responseType config)) r = Normal (data resp)
    ∧ status resp = response_status r
    ∧ statusText resp = response_statusText r
    ∧ responseHeaders resp = response_headers r
    ∧ (contentType resp, contentFormat resp)
      = getContentType (response_headers r).
Proof.
  unfold ChainFetch.makeApiCall.
  destruct (fetch n _) as [e|r]; [done|].
  destruct (ok r) eqn:Hok; [|done]. simpl.
  destruct (getContentType _) as [type format] eqn:Hty.
  destruct (decode _ r) as [d| |] eqn:Hd; [|done..].
  intros [= <-]. exists r. by rewrite Hty.
Qed.

(** X14.  Every entry of a [{steps}] reply reports the upstream response of
    the call at its position: its status, which is a 2xx one, its status
    text and its headers; and the kind and format of the entry are the
    classification of the headers the entry itself carries. *)
Theorem steps_report_upstream
    (session : ChainFetch.Session) (fetch : network)
    (config : ChainFetch.ChainedApiConfig) (sub accessToken : string)
    (rs : list ApiResponse) (k : nat) (resp : ApiResponse) :
  nonempty (ChainFetch.getToken session) = Some sub →
  nonempty (ChainFetch.getValidAccessToken session sub) = Some accessToken →
  snd (ChainFetch.POST session fetch config) = Normal (ChainFetch.Json200 rs) →
  rs !! k = Some resp →
  ∃ req r,
    fst (ChainFetch.POST session fetch config) !! k = Some (req, Normal resp)
    ∧ fetch k (fetch_request req) = inr r
    ∧ status resp = response_status r
    ∧ (200 ≤ status resp ≤ 299)%Z
    ∧ statusText resp = response_statusText r
    ∧ responseHeaders resp = response_headers r
    ∧ (contentType resp, contentFormat resp)
      = getContentType (responseHeaders resp).
Proof.
  intros Hsub Htok Hreply Hk.
  destruct (chain_POST_run session fetch config _ _ Hsub Htok)
    as (out & Hrun & Hout).
  rewrite Hreply in Hout. destruct out as [rs'| |]; [|done..].
  injection Hout as ->.
  destruct (run_completed _ _ _ _ _ _ _ Hrun) as [Hcalls _].
  assert (Hc : (snd <$> fst (ChainFetch.POST session fetch config)) !! k
               = Some (Normal resp)).
  { rewrite Hcalls, list_lookup_fmap. by rewrite Hk. }
  apply list_lookup_fmap_Some in Hc as ([req res] & Heq & Hcall).
  simpl in Heq. subst res.
  destruct (run_call _ _ _ _ _ _ _ _ _ _ Hrun Hcall) as (_ & _ & _ & Hres).
  symmetry in Hres.
  destruct (chain_makeApiCall_normal _ _ _ _ Hres)
    as (r & Hf & Hok & _ & Hst & Htxt & Hh & Hty).
  exists req, r. repeat split; try done.
  - rewrite Hst. unfold ok in Hok. lia.
  - rewrite Hst. unfold ok in Hok. lia.
  - by rewrite Hh.
Qed.

Lemma steps_report_upstream_witness :
  nonempty (ChainFetch.getToken signed_in) = Some "user-1"
  ∧ nonempty (ChainFetch.getValidAccessToken signed_in "user-1")
    = Some "token-1"
  ∧ snd (ChainFetch.POST signed_in
           (answers (json_response item_text item_body)
              (json_response done_text done_body))
           {| ChainFetch.steps := [ step_A; step_B ];
              ChainFetch.transforms := None |})
    = Normal (ChainFetch.Json200
                [ json_result item_body; json_result done_body ])
  ∧ [ json_result item_body; json_result done_body ] !! 1
    = Some (json_result done_body)
  ∧ ∃ req r,
      fst (ChainFetch.POST signed_in
             (answers (json_response item_text item_body)
                (json_response done_text done_body))
             {| ChainFetch.steps := [ step_A; step_B ];
                ChainFetch.transforms := None |}) !! 1
      = Some (req, Normal (json_result done_body))
      ∧ status (json_result done_body) = response_status r.
Proof.
  repeat (split; [reflexivity|]).
  destruct (steps_report_upstream signed_in
              (answers (json_response item_text item_body)
                 (json_response done_text done_body))
              {| ChainFetch.steps := [ step_A; step_B ];
                 ChainFetch.transforms := None |}
              "user-1" "token-1"
              [ json_result item_body; json_result done_body ] 1
              (json_result done_body) eq_refl eq_refl eq_refl eq_refl)
    as (req & r & Hcall & _ & Hst & _).
  exists req, r. split; [exact Hcall|exact Hst].
Defined.

(** X15.  When the first upstream service answers outside 2xx, the chained
    route makes that one call and replies 500 with an error that carries the
    status, the status text and the text of the upstream body, which is
    never decoded; the message reads
    [HTTP Error: <status> - <statusText>\nDetails: <body text>]. *)
Theorem first_step_http_error
    (session : ChainFetch.Session) (fetch : network)
    (config : ChainFetch.ChainedApiConfig) (sub accessToken : string)
    (step : ApiRequestConfig) (rest : list ApiRequestConfig) (r : Response) :
  nonempty (ChainFetch.getToken session) = Some sub →
  nonempty (ChainFetch.getValidAccessToken session sub) = Some accessToken →
  ChainFetch.steps config = step :: rest →
  fetch 0 (fetch_request (ChainFetch.authorize accessToken step)) = inr r →
  ok r = false →
  ChainFetch.POST session fetch config
  = ([ (ChainFetch.authorize accessToken step,
        Throw (HttpError (response_status r) (response_statusText r)
                 (Some (response_text r)))) ],
     Normal (ChainFetch.Json500
               (HttpError (response_status r) (response_statusText r)
                  (Some (response_text r)))))
  ∧ message (HttpError (response_status r) (response_statusText r)
               (Some (response_text r)))
    = "HTTP Error: " ++ pretty (response_status r) ++ " - "
      ++ response_statusText r ++ String "010" ("Details: " ++ response_text r).
Proof.
  intros Hsub Htok Hsteps Hfetch Hok. split; [|done].
  unfold ChainFetch.POST. rewrite Hsub, Htok, Hsteps. simpl.
  assert (Hp : ChainFetch.prepare (ChainFetch.transforms config) 0 JNull
                 (ChainFetch.authorize accessToken step)
               = Normal (ChainFetch.authorize accessToken step)).
  { unfold ChainFetch.prepare. by destruct (_ ≫= _). }
  rewrite Hp. unfold ChainFetch.makeApiCall. by rewrite Hfetch, Hok.
Qed.

Lemma first_step_http_error_witness :
  ChainFetch.POST signed_in (answers error_response error_response)
    {| ChainFetch.steps := [ step_A; step_B ];
       ChainFetch.transforms := Some [ link_id; link_id ] |}
  = ([ (step_A, Throw (HttpError 500 "Internal Server Error" (Some "boom"))) ],
     Normal (ChainFetch.Json500
               (HttpError 500 "Internal Server Error" (Some "boom"))))
  ∧ message (HttpError 500 "Internal Server Error" (Some "boom"))
    = "HTTP Error: " ++ "500" ++ " - " ++ "Internal Server Error"
      ++ String "010" ("Details: " ++ "boom").
Proof.
  exact (first_step_http_error signed_in (answers error_response error_response)
           {| ChainFetch.steps := [ step_A; step_B ];
              ChainFetch.transforms := Some [ link_id; link_id ] |}
           "user-1" "token-1" step_A [ step_B ] error_response
           eq_refl eq_refl eq_refl eq_refl eq_refl).
Defined.

(** ** Calls of the single-hop route *)

Lemma get_prop_data_key d k :
  nullish d = false → data_key k = true → ∃ x, get_prop d k = Normal x.
Proof.
  intros Hd Hk. destruct (get_opt_data_key d k Hk) as [x Hx].
  exists x. by destruct d.
Qed.

(** The content extractor fails on no body that has members. *)
Lemma extractMainContent_defined d type :
  payload_kind type && nullish d = false →
  ∃ x, OpenFetch.extractMainContent d type = Normal x.
Proof.
  intros Hd. unfold OpenFetch.extractMainContent.
  destruct type; simpl in Hd; eauto;
    try (destruct (get_prop_data_key d "length" Hd) as [a ->]; [done|];
         destruct (get_prop_data_key d "format" Hd) as [b ->]; [done|];
         simpl; by eauto).
  destruct (chat_content_normal d) as [chat ->]. simpl.
  destruct (truthy chat); [by eauto|].
  destruct (get_opt_data_key d "content") as [c ->]; [done|]. simpl.
  destruct (truthy c); [by eauto|].
  destruct (get_opt_data_key d "data") as [w ->]; [done|]. simpl.
  destruct (truthy w); [by eauto|]. destruct d; eauto.
Qed.

Lemma extractMainContent_nullish d type :
  payload_kind type && nullish d = true →
  ∃ e, OpenFetch.extractMainContent d type = Throw e.
Proof. destruct type, d; simpl; try done; eauto. Qed.

(** [makeApiCall] of the single-hop route returns a response or throws. *)
Lemma open_makeApiCall_not_beyond fetch n config :
  OpenFetch.makeApiCall fetch n config ≠ Beyond.
Proof.
  unfold OpenFetch.makeApiCall.
  destruct (fetch n _) as [e|r]; [done|].
  destruct (negb (ok r)); [done|].
  destruct (getContentType _) as [type format].
  destruct (decode _ r) as [d| |] eqn:Hd; simpl;
    [|done|by apply decode_not_beyond in Hd].
  destruct (payload_kind type && nullish d) eqn:Hp.
  - by destruct (extractMainContent_nullish _ _ Hp) as [e ->].
  - by destruct (extractMainContent_defined _ _ Hp) as [x ->].
Qed.

(** X16.  What it takes for a call of the single-hop route to succeed: the
    transport delivers a response, its status is 2xx, its body decodes, and
    the body is not [null] under an image, audio, video or octet-stream
    content type (the content extractor would read a member of it).  A failed
    call throws; the model never leaves the fragment. *)
Theorem open_call_succeeds
    (fetch : network) (n : nat) (config : ApiRequestConfig) :
  (is_normal (OpenFetch.makeApiCall fetch n config) = true ↔
   ∃ r d,
     fetch n (fetch_request config) = inr r
     ∧ ok r = true
     ∧ decode (default "json" (responseType config)) r = Normal d
     ∧ payload_kind (fst (getContentType (response_headers r))) && nullish d
       = false)
  ∧ (is_normal (OpenFetch.makeApiCall fetch n config) = false →
     ∃ e, OpenFetch.makeApiCall fetch n config = Throw e).
Proof.
  split.
  - unfold OpenFetch.makeApiCall. destruct (fetch n _) as [e|r].
    { split; [done|]. by intros (r & d & [=] & _). }
    destruct (ok r) eqn:Hok; simpl.
    + destruct (getContentType _) as [type format] eqn:Hty.
      destruct (decode _ r) as [d|e|] eqn:Hd; simpl.
      * destruct (payload_kind type && nullish d) eqn:Hp.
        -- destruct (extractMainContent_nullish _ _ Hp) as [e ->]. simpl.
           split; [done|]. intros (r' & d' & [= <-] & _ & Hd' & Hp').
           rewrite Hty, Hd in *. injection Hd' as <-. simpl in Hp'. congruence.
        -- destruct (extractMainContent_defined _ _ Hp) as [x ->]. simpl.
           split; [|done]. intros _. exists r, d. by rewrite Hty.
      * split; [done|]. intros (r' & d' & [= <-] & _ & Hd' & _). congruence.
      * split; [done|]. intros (r' & d' & [= <-] & _ & Hd' & _). congruence.
    + split; [done|]. intros (r' & d' & [= <-] & Hok' & _). congruence.
  - destruct (OpenFetch.makeApiCall fetch n config) as [x|e|] eqn:Hcall;
      [done|by eauto|]. by apply open_makeApiCall_not_beyond in Hcall.
Qed.

(** X17.  In the modes [text], [blob] and [arrayBuffer] the body is handed
    over undecoded, so in either route a call succeeds exactly when the
    transport delivers a response with a 2xx status: no body makes it
    fail. *)
Theorem raw_modes_always_decode
    (fetch : network) (n : nat) (config : ApiRequestConfig) (mode : string) :
  responseType config = Some mode →
  mode ∈ raw_modes →
  (is_normal (ChainFetch.makeApiCall fetch n config) = true ↔
   ∃ r, fetch n (fetch_request config) = inr r ∧ ok r = true)
  ∧ (is_normal (OpenFetch.makeApiCall fetch n config) = true ↔
     ∃ r, fetch n (fetch_request config) = inr r ∧ ok r = true).
Proof.
  intros Hmode Hraw.
  assert (Hd : ∀ r, ∃ d, decode mode r = Normal d ∧ nullish d = false).
  { intros r. unfold raw_modes in Hraw.
    rewrite !elem_of_cons, elem_of_nil in Hraw.
    destruct Hraw as [->|[->|[->|[]]]]; by eexists. }
  split.
  - rewrite chain_makeApiCall_succeeds. rewrite Hmode. simpl. split.
    + intros (r & Hf & Hok & _). by exists r.
    + intros (r & Hf & Hok). exists r. destruct (Hd r) as (d & -> & _). done.
  - unfold OpenFetch.makeApiCall. rewrite Hmode. simpl.
    destruct (fetch n _) as [e|r].
    { split; [done|]. by intros (r & [=] & _). }
    destruct (ok r) eqn:Hok; simpl.
    + destruct (getContentType _) as [type format].
      destruct (Hd r) as (d & -> & Hn). simpl.
      destruct (extractMainContent_defined d type) as [x ->].
      { rewrite Hn. apply andb_false_r. }
      split; [|done]. intros _. by exists r.
    + split; [done|]. intros (r' & [= <-] & Hok'). congruence.
Qed.

Lemma raw_modes_always_decode_witness :
  responseType (with_responseType (Some "text") step_A) = Some "text"
  ∧ "text" ∈ raw_modes
  ∧ (is_normal (ChainFetch.makeApiCall (answers error_response error_response)
                  0 (with_responseType (Some "text") step_A)) = true ↔
     ∃ r, answers error_response error_response 0
            (fetch_request (with_responseType (Some "text") step_A)) = inr r
          ∧ ok r = true).
Proof.
  split; [reflexivity|]. split; [by apply list_elem_of_here|].
  apply (proj1 (raw_modes_always_decode (answers error_response error_response)
                  0 (with_responseType (Some "text") step_A) "text" eq_refl
                  (list_elem_of_here _ _))).
Defined.

Lemma decode_other_mode mode r :
  mode ∉ raw_modes → decode mode r = decode "json" r.
Proof.
  unfold raw_modes. rewrite !not_elem_of_cons. intros (Ht & Hb & Ha & _).
  unfold decode.
  destruct (String.eqb_spec mode "text"); [done|].
  destruct (String.eqb_spec mode "blob"); [done|].
  by destruct (String.eqb_spec mode "arrayBuffer").
Qed.

(** X18.  A [responseType] that is none of [text], [blob] and
    [arrayBuffer] is decoded as JSON, whatever it says: a call of the
    single-hop route behaves as without a [responseType]; a call of the
    chained route returns the same response when there is one, and where the
    body of a delivered response does not parse, the parse error names the
    mode as given instead of [json]. *)
Theorem other_modes_are_json
    (fetch : network) (n : nat) (config : ApiRequestConfig) (mode : string) :
  mode ∉ raw_modes →
  OpenFetch.makeApiCall fetch n (with_responseType (Some mode) config)
  = OpenFetch.makeApiCall fetch n (with_responseType None config)
  ∧ (∀ resp,
       ChainFetch.makeApiCall fetch n (with_responseType (Some mode) config)
       = Normal resp
       ↔ ChainFetch.makeApiCall fetch n (with_responseType None config)
         = Normal resp)
  ∧ (∀ cause,
       ChainFetch.makeApiCall fetch n (with_responseType None config)
       = Throw (ParseError "json" cause)
       → ChainFetch.makeApiCall fetch n (with_responseType (Some mode) config)
         = Throw (ParseError mode cause)
         ∨ ∃ e, fetch n (fetch_request config) = inl e).
Proof.
  intros Hmode.
  unfold OpenFetch.makeApiCall, ChainFetch.makeApiCall.
  change (fetch_request (with_responseType ?m config))
    with (fetch_request config).
  simpl. destruct (fetch n _) as [e|r].
  { split; [done|]. split; [done|]. intros cause _. right. by exists e. }
  rewrite (decode_other_mode _ r Hmode).
  split; [done|].
  destruct (negb (ok r)); [by split|].
  destruct (getContentType _) as [type format].
  destruct (decode "json" r); split; try done.
  intros cause [= <-]. by left.
Qed.

Lemma other_modes_are_json_witness :
  ("binary" ∉ raw_modes)
  ∧ OpenFetch.makeApiCall (answers error_response error_response) 0
      (with_responseType (Some "binary") step_A)
    = OpenFetch.makeApiCall (answers error_response error_response) 0
        (with_responseType None step_A).
Proof.
  assert (H : "binary" ∉ raw_modes).
  { unfold raw_modes. rewrite !not_elem_of_cons. repeat split; try done.
    apply not_elem_of_nil. }
  split; [exact H|].
  exact (proj1 (other_modes_are_json (answers error_response error_response) 0
                  step_A "binary" H)).
Defined.

(** The follow-up request is [next] with, at most, another body. *)
Lemma next_config_body_only link response nxt req :
  OpenFetch.next_config link response nxt = Normal req →
  req = with_body (body req) nxt.
Proof.
  unfold OpenFetch.next_config.
  destruct (match OpenFetch.extractPath link with
            | Some path => extractByPath (data response) path
            | None => Normal (simplifiedContent response)
            end) as [extracted| |]; cbn [mbind completion_bind]; [|done..].
  destruct (apply_transform OpenFetch.transformFunctions
              (Some (default "identity" (OpenFetch.transformFn link)))
              extracted) as [transformed| |]; cbn [mbind completion_bind];
    [|done..].
  destruct (nonempty (OpenFetch.injectPath link)).
  - destruct (injectAtPath _ _ _); simpl; [|done..]. by intros [= <-].
  - by intros [= <-].
Qed.

(** X19.  The single-hop route replies all or nothing.  It makes one or two
    calls, the first on the request as given; a second one only with a
    [chainConfig.next], on [next] with at most another body.  A 200 reply
    holds the responses of all the calls made, in order.  A call that fails
    is the last one and its error is the 500 reply: when the follow-up fails,
    the reply carries nothing of the first response. *)
Theorem single_hop_all_or_nothing
    (fetch : network) (config : OpenFetch.ChainedRequest) :
  (length (fst (OpenFetch.POST fetch config)) = 1
   ∨ length (fst (OpenFetch.POST fetch config)) = 2)
  ∧ fst (OpenFetch.POST fetch config) !! 0
    = Some (OpenFetch.request config,
            OpenFetch.makeApiCall fetch 0 (OpenFetch.request config))
  ∧ (∀ req res,
       fst (OpenFetch.POST fetch config) !! 1 = Some (req, res) →
       ∃ link nxt,
         OpenFetch.chainConfig config = Some link
         ∧ OpenFetch.next link = Some nxt
         ∧ req = with_body (body req) nxt
         ∧ res = OpenFetch.makeApiCall fetch 1 req)
  ∧ (∀ r,
       snd (OpenFetch.POST fetch config) = Normal (OpenFetch.Json200 r) →
       snd <$> fst (OpenFetch.POST fetch config)
       = (Normal (OpenFetch.first r)
          :: match OpenFetch.chainedResponse r with
             | Some c => [ Normal c ]
             | None => []
             end)%list)
  ∧ (∀ k c,
       fst (OpenFetch.POST fetch config) !! k = Some c →
       succeeded c = false →
       length (fst (OpenFetch.POST fetch config)) = S k
       ∧ ∃ e, snd c = Throw e
              ∧ snd (OpenFetch.POST fetch config)
                = Normal (OpenFetch.Json500 e)).
Proof.
  unfold OpenFetch.POST.
  destruct (OpenFetch.makeApiCall fetch 0 (OpenFetch.request config))
    as [r1|e1|] eqn:H1; [| |by apply open_makeApiCall_not_beyond in H1].
  - destruct (OpenFetch.chainConfig config) as [link|] eqn:Hlink; simpl.
    + destruct (OpenFetch.next link) as [nxt|] eqn:Hnext; simpl.
      * destruct (OpenFetch.next_config link r1 nxt) as [req2| |] eqn:Hn;
          simpl.
        -- destruct (OpenFetch.makeApiCall fetch 1 req2) as [r2|e2|] eqn:H2;
             [| |by apply open_makeApiCall_not_beyond in H2]; simpl.
           ++ split; [by right|]. split; [done|]. split.
              { intros req res [= <- <-]. exists link, nxt.
                repeat split; try done. by eapply next_config_body_only. }
              split; [by intros r [= <-]|].
              intros [|[|k]] c; simpl; [by intros [= <-]..|done].
           ++ split; [by right|]. split; [done|]. split.
              { intros req res [= <- <-]. exists link, nxt.
                repeat split; try done. by eapply next_config_body_only. }
              split; [done|].
              intros [|[|k]] c; simpl; [by intros [= <-]| |done].
              intros [= <-] _. eauto.
        -- split; [by left|]. split; [done|]. split; [done|]. split; [done|].
           intros [|k] c; simpl; [by intros [= <-]|done].
        -- split; [by left|]. split; [done|]. split; [done|]. split; [done|].
           intros [|k] c; simpl; [by intros [= <-]|done].
      * split; [by left|]. split; [done|]. split; [done|].
        split; [by intros r [= <-]|].
        intros [|k] c; simpl; [by intros [= <-]|done].
    + split; [by left|]. split; [done|]. split; [done|].
      split; [by intros r [= <-]|].
      intros [|k] c; simpl; [by intros [= <-]|done].
  - simpl. split; [by left|]. split; [done|]. split; [done|]. split; [done|].
    intros [|k] c; simpl; [|done]. intros [= <-] _. eauto.
Qed.

(** ** The classifier and the headers *)

(** X20.  [getContentType] reads the member [content-type] of the header
    mapping and no other: setting or removing any other header, the
    capitalised [Content-Type] included, leaves the classification as it
    was. *)
Theorem getContentType_reads_one_header
    (headers : gmap string string) (name value : string) :
  name ≠ "content-type" →
  getContentType (<[name := value]> headers) = getContentType headers
  ∧ getContentType (delete name headers) = getContentType headers.
Proof.
  intros Hname. unfold getContentType.
  by rewrite lookup_insert_ne, lookup_delete_ne.
Qed.

Lemma getContentType_reads_one_header_witness :
  "Content-Type" ≠ "content-type"
  ∧ getContentType (<["Content-Type" := "image/png"]>
                      {[ "content-type" := "application/json" ]})
    = getContentType {[ "content-type" := "application/json" ]}.
Proof.
  split; [done|].
  exact (proj1 (getContentType_reads_one_header
                  {[ "content-type" := "application/json" ]}
                  "Content-Type" "image/png" ltac:(done))).
Defined.

Lemma includes_no_slash s p :
  occurs "/" s = false → occurs "/" p = true → includes s p = false.
Proof.
  intros Hs Hp. destruct (includes s p) eqn:Hin; [|done].
  by rewrite (includes_occurs _ _ _ Hin Hp) in Hs.
Qed.

(** X21.  For a header value that is a plain image, audio or video media
    type, the format is everything after the ['/'], parameters included:
    [image/<rest>] has the format [<rest>] for any [<rest>] without a
    ['/']. *)
Theorem format_is_text_after_slash (rest : string) :
  occurs "/" rest = false →
  getContentType {[ "content-type" := "image/" ++ rest ]} = (Image, Some rest)
  ∧ getContentType {[ "content-type" := "audio/" ++ rest ]}
    = (Audio, Some rest)
  ∧ getContentType {[ "content-type" := "video/" ++ rest ]}
    = (Video, Some rest).
Proof.
  intros Hrest. unfold getContentType. rewrite !lookup_singleton_eq.
  cbn -[includes split].
  assert (Hs : ∀ kind, occurs "/" kind = false →
                 split "/" (kind ++ String "/" rest) !! 1 = Some rest).
  { intros kind Hk. rewrite split_second.
    - f_equal. induction kind as [|c kind IH]; simpl in *.
      + by apply before_no_sep.
      + destruct (Ascii.eqb c "/"); [done|]. by apply IH.
    - induction kind as [|c kind IH]; simpl in *; [done|].
      destruct (Ascii.eqb c "/"); [done|]. by apply IH. }
  pose proof (Hs "image" eq_refl) as Hi.
  pose proof (Hs "audio" eq_refl) as Ha.
  pose proof (Hs "video" eq_refl) as Hv.
  cbv [String.append] in Hi, Ha, Hv |- *. rewrite Hi, Ha, Hv.
  simpl. rewrite !(includes_no_slash rest) by done. by destruct rest.
Qed.

Lemma format_is_text_after_slash_witness :
  occurs "/" "svg+xml; charset=utf-8" = false
  ∧ getContentType {[ "content-type" := "image/" ++ "svg+xml; charset=utf-8" ]}
    = (Image, Some "svg+xml; charset=utf-8").
Proof.
  split; [reflexivity|].
  exact (proj1 (format_is_text_after_slash "svg+xml; charset=utf-8" eq_refl)).
Defined.

(** ** The access token ([src/app/utils/auth.ts]) *)

(** A row read from the store: one request, and an expiry that is a
    date. *)
Lemma getStoredTokens_row w userId tokens :
  snd (Auth.getStoredTokens w userId) = Normal (Some tokens) →
  Auth.getStoredTokens w userId
  = ([ Auth.ReadTokens userId ], Normal (Some tokens))
  ∧ Auth.valid_time (Auth.expires_at tokens) = true
  ∧ Auth.select_tokens w userId = Auth.SelectData (Some tokens).
Proof.
  unfold Auth.getStoredTokens, Auth.logged.
  destruct (Auth.select_tokens w userId) as [|[row|]]; [done| |done].
  destruct (Auth.valid_time (Auth.expires_at row)) eqn:Hv; [|done].
  simpl. by intros [= ->].
Qed.

(** New tokens have an expiry that is a date. *)
Lemma refreshGoogleToken_valid w refreshToken newTokens :
  Auth.refreshGoogleToken w refreshToken = Some newTokens →
  Auth.valid_time (Auth.expires_at newTokens) = true.
Proof.
  unfold Auth.refreshGoogleToken.
  destruct (Auth.google w refreshToken) as [|[] [answer|]]; try done.
  destruct (Auth.valid_time _) eqn:Hv; [|done]. by intros [= <-].
Qed.

(** Writing back tokens whose expiry is a date does not throw. *)
Lemma updateStoredTokens_valid w userId tokens :
  Auth.valid_time (Auth.expires_at tokens) = true →
  ∃ events updated,
    Auth.updateStoredTokens w userId tokens = (events, Normal updated).
Proof.
  intros Hv. unfold Auth.updateStoredTokens, Auth.logged. rewrite Hv.
  destruct (Auth.select_provider w userId) as [|existing]; [by eauto|].
  destruct (nonempty existing); by eauto.
Qed.

(** X22.  Unless new tokens are obtained, [getValidAccessToken] returns the
    stored access token and writes nothing: for a stored row whose expiry
    is a date and a clock that reads a date, when the token is not about to
    expire, when the stored refresh token is empty, and also when the refresh
    fails, in which case an expired token is handed out as valid.  In the
    first two cases the store is read once and nothing else is requested.
    A refresh also fails when Google answers with an [expires_in] that
    leads to no date. *)
Theorem stored_token_without_write
    (w : Auth.World) (userId : string) (tokens : Auth.TokenInfo) :
  snd (Auth.getStoredTokens w userId) = Normal (Some tokens) →
  Auth.valid_time (Auth.clock w 0) = true →
  Auth.isExpiringSoon tokens (Auth.clock w 0) = false
  ∨ Auth.refresh_token tokens = ""
  ∨ Auth.refreshGoogleToken w (Auth.refresh_token tokens) = None →
  snd (Auth.getValidAccessToken w userId)
  = Normal (Some (Auth.access_token tokens))
  ∧ (∀ u t provider,
       Auth.Upsert u t provider ∉ fst (Auth.getValidAccessToken w userId))
  ∧ (Auth.isExpiringSoon tokens (Auth.clock w 0) = false
     ∨ Auth.refresh_token tokens = "" →
     fst (Auth.getValidAccessToken w userId) = [ Auth.ReadTokens userId ])
  ∧ (∀ ok answer,
       Auth.google w (Auth.refresh_token tokens)
       = Auth.GoogleResponse ok (Some answer) →
       ok = false
       ∨ Auth.valid_time (Auth.clock w 1 + Auth.expires_in answer)%float
         = false →
       Auth.refreshGoogleToken w (Auth.refresh_token tokens) = None).
Proof.
  intros Hstored Hclock Hcase.
  destruct (getStoredTokens_row _ _ _ Hstored) as (Hrow & Hvalid & _).
  assert (Hgoogle : ∀ ok answer,
    Auth.google w (Auth.refresh_token tokens)
    = Auth.GoogleResponse ok (Some answer) →
    ok = false
    ∨ Auth.valid_time (Auth.clock w 1 + Auth.expires_in answer)%float = false →
    Auth.refreshGoogleToken w (Auth.refresh_token tokens) = None).
  { intros ok answer Hg Hbad. unfold Auth.refreshGoogleToken. rewrite Hg.
    destruct ok; [|done]. destruct Hbad as [|Hbad]; [done|]. by rewrite Hbad. }
  unfold Auth.getValidAccessToken, Auth.logged. rewrite Hrow, Hvalid, Hclock.
  destruct (Auth.isExpiringSoon tokens (Auth.clock w 0)) eqn:Hexp; simpl.
  - destruct (String.eqb_spec (Auth.refresh_token tokens) "") as [Hr|Hr]; simpl.
    + split; [done|]. split; [|done]. intros u t provider.
      rewrite !not_elem_of_cons. split; [done|]. apply not_elem_of_nil.
    + destruct Hcase as [|[|Hnone]]; [done..|]. rewrite Hnone. simpl.
      split; [done|]. split; [|split; [by intros [|]|done]].
      intros u t provider. rewrite !not_elem_of_cons.
      repeat split; try done. apply not_elem_of_nil.
  - split; [done|]. split; [|done]. intros u t provider.
    rewrite !not_elem_of_cons. split; [done|]. apply not_elem_of_nil.
Qed.

Lemma stored_token_without_write_witness :
  snd (Auth.getStoredTokens (world 2000 refreshed_undated false) "user-1")
  = Normal (Some stored_row)
  ∧ Auth.valid_time (Auth.clock (world 2000 refreshed_undated false) 0) = true
  ∧ Auth.isExpiringSoon stored_row
      (Auth.clock (world 2000 refreshed_undated false) 0) = true
  ∧ Auth.refreshGoogleToken (world 2000 refreshed_undated false)
      (Auth.refresh_token stored_row) = None
  ∧ Auth.getValidAccessToken (world 2000 refreshed_undated false) "user-1"
    = ([ Auth.ReadTokens "user-1"; Auth.RefreshRequest "refresh-1" ],
       Normal (Some "old-token"))
  ∧ snd (Auth.getValidAccessToken (world 2000 refreshed_undated false)
           "user-1")
    = Normal (Some (Auth.access_token stored_row)).
Proof.
  repeat (split; [reflexivity|]).
  exact (proj1 (stored_token_without_write
                  (world 2000 refreshed_undated false) "user-1" stored_row
                  eq_refl eq_refl (or_intror (or_intror eq_refl)))).
Defined.

(** X23.  The outcomes of [getValidAccessToken].  It gives no token in
    exactly two cases: the store has no row for the user (or the read
    fails), or the token was refreshed and the new one could not be written
    back; a refresh that fails is not one of them.  It throws in exactly two
    cases, with the RangeError of a log line: the expiry of the stored row
    is not a date, or the clock does not read one. *)
Theorem no_token_cases (w : Auth.World) (userId : string) :
  (snd (Auth.getValidAccessToken w userId) = Normal None ↔
   snd (Auth.getStoredTokens w userId) = Normal None
   ∨ ∃ tokens newTokens,
       snd (Auth.getStoredTokens w userId) = Normal (Some tokens)
       ∧ Auth.valid_time (Auth.clock w 0) = true
       ∧ Auth.isExpiringSoon tokens (Auth.clock w 0) = true
       ∧ Auth.refresh_token tokens ≠ ""
       ∧ Auth.refreshGoogleToken w (Auth.refresh_token tokens)
         = Some newTokens
       ∧ snd (Auth.updateStoredTokens w userId newTokens) = Normal false)
  ∧ (snd (Auth.getValidAccessToken w userId) = Throw Auth.invalid_time ↔
     ∃ row,
       Auth.select_tokens w userId = Auth.SelectData (Some row)
       ∧ (Auth.valid_time (Auth.expires_at row) = false
          ∨ Auth.valid_time (Auth.clock w 0) = false))
  ∧ (∀ e, snd (Auth.getValidAccessToken w userId) = Throw e →
          e = Auth.invalid_time)
  ∧ snd (Auth.getValidAccessToken w userId) ≠ Beyond.
Proof.
  destruct (Auth.select_tokens w userId) as [|[row|]] eqn:Hsel;
    [| |];
    unfold Auth.getValidAccessToken, Auth.getStoredTokens, Auth.logged;
    rewrite Hsel; simpl.
  { split; [by split; eauto|]. split; [|done]. split; [done|].
    by intros (? & [=] & _). }
  2: { split; [by split; eauto|]. split; [|done]. split; [done|].
       by intros (? & [=] & _). }
  destruct (Auth.valid_time (Auth.expires_at row)) eqn:Hrow; simpl;
    rewrite ?Hrow; simpl.
  2: { split; [|split; [|split; [by intros e [= <-]|done]]].
       - split; [done|]. by intros [|(t & n & [=] & _)].
       - split; [|done]. intros _. exists row. eauto. }
  destruct (Auth.valid_time (Auth.clock w 0)) eqn:Hclock; simpl.
  2: { split; [|split; [|split; [by intros e [= <-]|done]]].
       - split; [done|]. by intros [|(t & n & _ & [=] & _)].
       - split; [|done]. intros _. exists row. eauto. }
  assert (Hnothrow : ∀ P : Prop,
            (∃ row',
               Auth.SelectData (Some row) = Auth.SelectData (Some row')
               ∧ (Auth.valid_time (Auth.expires_at row') = false
                  ∨ true = false)) → P).
  { intros P (row' & [= <-] & [H|H]); congruence. }
  destruct (Auth.isExpiringSoon row (Auth.clock w 0)) eqn:Hexp; simpl.
  - destruct (String.eqb_spec (Auth.refresh_token row) "") as [Hr|Hr]; simpl.
    + split; [|split; [split; [done|apply Hnothrow]|done]].
      split; [done|]. intros [|(t & n & [= <-] & _ & _ & Hne & _)]; done.
    + destruct (Auth.refreshGoogleToken w (Auth.refresh_token row))
        as [newTokens|] eqn:Hnew.
      * destruct (updateStoredTokens_valid w userId newTokens
                    (refreshGoogleToken_valid _ _ _ Hnew))
          as (events & updated & Hupd).
        rewrite Hupd. simpl. destruct updated; simpl.
        -- split; [|split; [split; [done|apply Hnothrow]|done]].
           split; [done|].
           intros [|(t & n & [= <-] & _ & _ & _ & Hn & Hu)]; [done|].
           rewrite Hnew in Hn. injection Hn as <-. by rewrite Hupd in Hu.
        -- split; [|split; [split; [done|apply Hnothrow]|done]].
           split; [|done]. intros _. right. exists row, newTokens.
           by rewrite Hupd.
      * simpl. split; [|split; [split; [done|apply Hnothrow]|done]].
        split; [done|].
        intros [|(t & n & [= <-] & _ & _ & _ & Hn & _)]; [done|].
        by rewrite Hnew in Hn.
  - split; [|split; [split; [done|apply Hnothrow]|done]].
    split; [done|]. intros [|(t & n & [= <-] & _ & He & _)]; [done|].
    congruence.
Qed.

Lemma no_token_cases_witness :
  Auth.select_tokens (world_of undated_row 2000 refreshed true) "user-1"
  = Auth.SelectData (Some undated_row)
  ∧ Auth.valid_time (Auth.expires_at undated_row) = false
  ∧ Auth.getValidAccessToken (world_of undated_row 2000 refreshed true)
      "user-1"
    = ([ Auth.ReadTokens "user-1" ], Throw Auth.invalid_time)
  ∧ snd (Auth.getValidAccessToken (world_of undated_row 2000 refreshed true)
           "user-1")
    = Throw Auth.invalid_time.
Proof.
  repeat (split; [reflexivity|]).
  apply (proj2 (proj1 (proj2 (no_token_cases
                                (world_of undated_row 2000 refreshed true)
                                "user-1")))).
  exists undated_row. split; [reflexivity|]. left. reflexivity.
Defined.

(** A log that holds no write. *)
Ltac not_written :=
  simpl; rewrite ?elem_of_cons, elem_of_nil; intuition discriminate.

(** X24.  What a refresh writes.  The row [getValidAccessToken] upserts is
    the user's own, under the provider the store already holds, which is
    not empty; its access token is the one Google issued and the one the
    caller gets when the write succeeds; its refresh token is the one
    Google issued or, when Google issued none, the stored one, and is never
    empty; its expiry is the second reading of the clock plus Google's
    [expires_in], and is a date.  It is written only for a stored token
    that is about to expire. *)
Theorem refresh_writes_row
    (w : Auth.World) (userId u provider : string) (row : Auth.TokenInfo) :
  Auth.Upsert u row provider ∈ fst (Auth.getValidAccessToken w userId) →
  u = userId
  ∧ Auth.select_provider w userId = Auth.SelectData (Some provider)
  ∧ provider ≠ ""
  ∧ (Auth.upsert w userId row provider = true →
     snd (Auth.getValidAccessToken w userId)
     = Normal (Some (Auth.access_token row)))
  ∧ Auth.refresh_token row ≠ ""
  ∧ Auth.valid_time (Auth.expires_at row) = true
  ∧ ∃ tokens answer,
      snd (Auth.getStoredTokens w userId) = Normal (Some tokens)
      ∧ Auth.isExpiringSoon tokens (Auth.clock w 0) = true
      ∧ Auth.google w (Auth.refresh_token tokens)
        = Auth.GoogleResponse true (Some answer)
      ∧ Auth.access_token row = Auth.google_access_token answer
      ∧ Auth.refresh_token row
        = default (Auth.refresh_token tokens)
            (nonempty (Auth.google_refresh_token answer))
      ∧ Auth.expires_at row
        = (Auth.clock w 1 + Auth.expires_in answer)%float.
Proof.
  assert (Hne : ∀ o x, nonempty o = Some x → o = Some x ∧ x ≠ "").
  { intros [y|] x; simpl; [|done]. destruct (String.eqb_spec y ""); [done|].
    by intros [= <-]. }
  intros Hin.
  remember (fst (Auth.getValidAccessToken w userId)) as log eqn:Hlog.
  unfold Auth.getValidAccessToken, Auth.getStoredTokens, Auth.logged in Hlog.
  destruct (Auth.select_tokens w userId) as [|[tokens|]] eqn:Hsel;
    [rewrite Hlog in Hin; exfalso; revert Hin; by not_written|
    |rewrite Hlog in Hin; exfalso; revert Hin; by not_written].
  destruct (Auth.valid_time (Auth.expires_at tokens)) eqn:Hvalid;
    simpl in Hlog; rewrite ?Hvalid in Hlog;
    [|rewrite Hlog in Hin; exfalso; revert Hin; by not_written].
  destruct (Auth.valid_time (Auth.clock w 0)) eqn:Hclock;
    [|rewrite Hlog in Hin; exfalso; revert Hin; by not_written].
  destruct (Auth.isExpiringSoon tokens (Auth.clock w 0)) eqn:Hexp;
    [|rewrite Hlog in Hin; exfalso; revert Hin; by not_written].
  destruct (String.eqb_spec (Auth.refresh_token tokens) "") as [Hr|Hr];
    [rewrite Hlog in Hin; exfalso; revert Hin; by not_written|].
  simpl in Hlog.
  destruct (Auth.refreshGoogleToken w (Auth.refresh_token tokens))
    as [newTokens|] eqn:Hnew;
    [|rewrite Hlog in Hin; exfalso; revert Hin; by not_written].
  pose proof (refreshGoogleToken_valid _ _ _ Hnew) as Hnewvalid.
  assert (Hstored : snd (Auth.getStoredTokens w userId) = Normal (Some tokens)).
  { unfold Auth.getStoredTokens, Auth.logged. by rewrite Hsel, Hvalid. }
  assert (Hresult : snd (Auth.getValidAccessToken w userId)
                    = (snd (Auth.updateStoredTokens w userId newTokens)
                         ≫= λ updated : bool,
                             Normal (if updated
                                     then Some (Auth.access_token newTokens)
                                     else None))).
  { unfold Auth.getValidAccessToken, Auth.getStoredTokens, Auth.logged.
    rewrite Hsel. simpl. rewrite Hvalid. simpl.
    rewrite Hvalid, Hclock, Hexp. simpl.
    destruct (String.eqb_spec (Auth.refresh_token tokens) ""); [done|].
    simpl. rewrite Hnew.
    by destruct (Auth.updateStoredTokens w userId newTokens). }
  unfold Auth.updateStoredTokens, Auth.logged in Hlog, Hresult.
  rewrite Hnewvalid in Hlog, Hresult.
  unfold Auth.refreshGoogleToken in Hnew.
  destruct (Auth.google w (Auth.refresh_token tokens))
    as [|[] [answer|]] eqn:Hg; try done.
  destruct (Auth.valid_time (Auth.clock w 1 + Auth.expires_in answer)%float)
    eqn:Hexpiry; [|done].
  injection Hnew as <-.
  destruct (Auth.select_provider w userId) as [|existing] eqn:Hp;
    [rewrite Hlog in Hin; exfalso; revert Hin; by not_written|].
  destruct (nonempty existing) as [p|] eqn:Hex;
    [|rewrite Hlog in Hin; exfalso; revert Hin; by not_written].
  destruct (Hne _ _ Hex) as [-> Hpne].
  rewrite Hlog in Hin. simpl in Hin, Hresult.
  rewrite !elem_of_cons, elem_of_nil in Hin.
  destruct Hin as [|[|[|[[= -> -> ->]|[]]]]]; try done.
  split; [done|]. split; [done|]. split; [done|]. split.
  { rewrite Hresult. simpl. by intros ->. }
  split.
  { simpl. destruct (nonempty (Auth.google_refresh_token answer)) as [x|] eqn:Hx;
      simpl; [|done]. by destruct (Hne _ _ Hx). }
  split; [done|]. by exists tokens, answer.
Qed.

Lemma refresh_writes_row_witness :
  Auth.Upsert "user-1"
    {| Auth.access_token := "new-token"; Auth.refresh_token := "refresh-1";
       Auth.expires_at := 5600%float |} "google"
    ∈ fst (Auth.getValidAccessToken (world 2000 refreshed true) "user-1")
  ∧ snd (Auth.getValidAccessToken (world 2000 refreshed true) "user-1")
    = Normal (Some "new-token").
Proof.
  assert (H : Auth.Upsert "user-1"
                {| Auth.access_token := "new-token";
                   Auth.refresh_token := "refresh-1";
                   Auth.expires_at := 5600%float |} "google"
              ∈ fst (Auth.getValidAccessToken (world 2000 refreshed true)
                       "user-1")).
  { do 3 apply list_elem_of_further. apply list_elem_of_here. }
  split; [exact H|].
  exact (proj1 (proj2 (proj2 (proj2
           (refresh_writes_row (world 2000 refreshed true) "user-1" "user-1"
              "google" _ H)))) eq_refl).
Defined.

Lemma nonempty_Some s : s ≠ "" → nonempty (Some s) = Some s.
Proof. intros Hs. simpl. by destruct (String.eqb_spec s ""). Qed.

(** X25.  The chained route with the token store behind it.  For a signed-in
    user: when [getValidAccessToken] gives no token, or an empty one, the
    reply is 401 and no call is made; when it throws, the reply is the 500
    with its error and no call is made; otherwise every call whose URL
    mentions the provider is sent [Authorization: Bearer] with exactly the
    token [getValidAccessToken] gave, links or no links. *)
Theorem provider_calls_carry_store_token
    (w : Auth.World) (sub : string) (fetch : network)
    (config : ChainFetch.ChainedApiConfig) :
  sub ≠ "" →
  (snd (Auth.getValidAccessToken w sub) = Normal None
   ∨ snd (Auth.getValidAccessToken w sub) = Normal (Some "") →
   Auth.POST w (Some sub) fetch config
   = ([], Normal (ChainFetch.Json401 "Failed to get valid access token")))
  ∧ (∀ e,
       snd (Auth.getValidAccessToken w sub) = Throw e →
       Auth.POST w (Some sub) fetch config
       = ([], Normal (ChainFetch.Json500 e)))
  ∧ (∀ accessToken k req res,
       snd (Auth.getValidAccessToken w sub) = Normal (Some accessToken) →
       accessToken ≠ "" →
       fst (Auth.POST w (Some sub) fetch config) !! k = Some (req, res) →
       includes (url req) "api.openai.com" = true →
       fetch_headers (fetch_request req) !! "Authorization"
       = Some ("Bearer " ++ accessToken)).
Proof.
  intros Hsub. unfold Auth.POST. rewrite (nonempty_Some _ Hsub).
  split; [|split].
  - intros Hcase. unfold ChainFetch.POST.
    cbn [ChainFetch.getToken ChainFetch.getValidAccessToken].
    rewrite (nonempty_Some _ Hsub). by destruct Hcase as [->| ->].
  - by intros e ->.
  - intros accessToken k req res -> Hne Hcall Hurl.
    set (session := {| ChainFetch.getToken := Some sub;
                       ChainFetch.getValidAccessToken :=
                         λ _, Some accessToken |}) in *.
    assert (Hs : nonempty (ChainFetch.getToken session) = Some sub)
      by exact (nonempty_Some _ Hsub).
    assert (Ht : nonempty (ChainFetch.getValidAccessToken session sub)
                 = Some accessToken) by exact (nonempty_Some _ Hne).
    destruct (chain_POST_run _ fetch config _ _ Hs Ht) as (out & Hrun & _).
    destruct (run_call _ _ _ _ _ _ _ _ _ _ Hrun Hcall)
      as (step' & Hstep & Hprep & _).
    apply list_lookup_fmap_Some in Hstep as (step & -> & _).
    apply prepare_body_only in Hprep. rewrite Hprep in Hurl |- *.
    unfold ChainFetch.authorize in Hurl |- *.
    destruct (includes (url step) "api.openai.com") eqn:Hin; simpl in *.
    + by rewrite lookup_insert_ne, lookup_insert_eq.
    + congruence.
Qed.

Lemma provider_calls_carry_store_token_witness :
  "user-1" ≠ ""
  ∧ snd (Auth.getValidAccessToken (world 2000 refreshed false) "user-1")
    = Normal None
  ∧ Auth.POST (world 2000 refreshed false) (Some "user-1")
      (answers (json_response item_text item_body) error_response)
      {| ChainFetch.steps := [ step_A ]; ChainFetch.transforms := None |}
    = ([], Normal (ChainFetch.Json401 "Failed to get valid access token"))
  ∧ snd (Auth.getValidAccessToken (world_of undated_row 2000 refreshed true)
           "user-1")
    = Throw Auth.invalid_time
  ∧ Auth.POST (world_of undated_row 2000 refreshed true) (Some "user-1")
      (answers (json_response item_text item_body) error_response)
      {| ChainFetch.steps := [ step_A ]; ChainFetch.transforms := None |}
    = ([], Normal (ChainFetch.Json500 Auth.invalid_time)).
Proof.
  split; [done|]. split; [reflexivity|]. split; [|split; [reflexivity|]].
  - exact (proj1 (provider_calls_carry_store_token
                    (world 2000 refreshed false) "user-1"
                    (answers (json_response item_text item_body)
                       error_response)
                    {| ChainFetch.steps := [ step_A ];
                       ChainFetch.transforms := None |} ltac:(done))
             (or_introl eq_refl)).
  - exact (proj1 (proj2 (provider_calls_carry_store_token
                           (world_of undated_row 2000 refreshed true) "user-1"
                           (answers (json_response item_text item_body)
                              error_response)
                           {| ChainFetch.steps := [ step_A ];
                              ChainFetch.transforms := None |} ltac:(done)))
             Auth.invalid_time eq_refl).
Defined.

(** ** A link that raises *)

(** A loop that stopped before the last step with no failed call stopped
    on the step after its last call, which could not be prepared. *)
Lemma run_stopped fetch transforms todo : ∀ i currentData calls out,
  ChainFetch.run fetch transforms i currentData todo = (calls, out) →
  forallb succeeded calls = true →
  length calls < length todo →
  ∃ step,
    todo !! length calls = Some step
    ∧ is_normal
        (ChainFetch.prepare transforms (i + length calls)
           (data_before currentData calls (length calls)) step) = false
    ∧ ∀ e,
        ChainFetch.prepare transforms (i + length calls)
          (data_before currentData calls (length calls)) step = Throw e →
        out = Throw e.
Proof.
  induction todo as [|step rest IH]; intros i cd calls out;
    [intros [= <- <-] _; simpl; lia|].
  simpl.
  destruct (ChainFetch.prepare transforms i cd step) as [step'|e|] eqn:Hp.
  - destruct (ChainFetch.makeApiCall fetch i step') as [r|e|] eqn:Hcall;
      [|by intros [= <- <-]..].
    destruct (ChainFetch.run fetch transforms (S i) (data r) rest)
      as [calls' out'] eqn:Hrun.
    intros [= <- <-] Hall Hlen. simpl in Hall, Hlen.
    destruct (IH _ _ _ _ Hrun Hall ltac:(lia)) as (s & Hs & Hn & Hout).
    exists s. cbn [length]. rewrite Nat.add_succ_r.
    match goal with
    | |- context [data_before cd ?l ?n] =>
        replace (data_before cd l n)
          with (data_before (data r) calls' (length calls'))
          by (by destruct calls')
    end.
    split; [done|]. split; [done|]. intros e He. by rewrite (Hout e He).
  - intros [= <- <-] _ _. exists step. simpl. rewrite Nat.add_0_r, Hp.
    split; [done|]. split; [done|]. by intros ? [= <-].
  - intros [= <- <-] _ _. exists step. simpl. rewrite Nat.add_0_r, Hp.
    by split.
Qed.

(** X26.  When the chained route stops before the last step although every
    call it made succeeded, a link raised: at least one call was made, the
    next position has a step and a link, the body of the last response is
    truthy, and applying the link to it fails; the error it throws is the 500
    reply, and the step at that position is not called. *)
Theorem failed_link_stops_chain
    (session : ChainFetch.Session) (fetch : network)
    (config : ChainFetch.ChainedApiConfig) (sub accessToken : string) :
  nonempty (ChainFetch.getToken session) = Some sub →
  nonempty (ChainFetch.getValidAccessToken session sub) = Some accessToken →
  forallb succeeded (fst (ChainFetch.POST session fetch config)) = true →
  length (fst (ChainFetch.POST session fetch config))
    < length (ChainFetch.steps config) →
  ∃ step link,
    0 < length (fst (ChainFetch.POST session fetch config))
    ∧ ChainFetch.steps config
        !! length (fst (ChainFetch.POST session fetch config)) = Some step
    ∧ ChainFetch.transforms config
        ≫= (.!! length (fst (ChainFetch.POST session fetch config)))
      = Some link
    ∧ truthy (data_before JNull (fst (ChainFetch.POST session fetch config))
                (length (fst (ChainFetch.POST session fetch config)))) = true
    ∧ is_normal
        (ChainFetch.apply_link link
           (data_before JNull (fst (ChainFetch.POST session fetch config))
              (length (fst (ChainFetch.POST session fetch config))))
           (ChainFetch.authorize accessToken step)) = false
    ∧ ∀ e,
        ChainFetch.apply_link link
          (data_before JNull (fst (ChainFetch.POST session fetch config))
             (length (fst (ChainFetch.POST session fetch config))))
          (ChainFetch.authorize accessToken step) = Throw e →
        snd (ChainFetch.POST session fetch config)
        = Normal (ChainFetch.Json500 e).
Proof.
  intros Hsub Htok Hall Hlen.
  destruct (chain_POST_run session fetch config _ _ Hsub Htok)
    as (out & Hrun & Hout).
  rewrite <- (length_fmap (ChainFetch.authorize accessToken)) in Hlen.
  destruct (run_stopped _ _ _ _ _ _ _ Hrun Hall Hlen) as (s & Hs & Hn & He).
  apply list_lookup_fmap_Some in Hs as (step & -> & Hstep).
  simpl in Hn, He. unfold ChainFetch.prepare in Hn, He.
  destruct (ChainFetch.transforms config
              ≫= (.!! length (fst (ChainFetch.POST session fetch config))))
    as [link|] eqn:Hlink; [|done].
  destruct (0 <? length (fst (ChainFetch.POST session fetch config)))%nat
    eqn:Hpos; [|done].
  destruct (truthy _) eqn:Htruthy; [|done]. simpl in Hn, He.
  exists step, link. apply Nat.ltb_lt in Hpos.
  repeat split; try done.
  intros e Hthrow. rewrite Hout. by rewrite (He e Hthrow).
Qed.

Lemma failed_link_stops_chain_witness :
  nonempty (ChainFetch.getToken signed_in) = Some "user-1"
  ∧ nonempty (ChainFetch.getValidAccessToken signed_in "user-1")
    = Some "token-1"
  ∧ forallb succeeded
      (fst (ChainFetch.POST signed_in
              (answers (json_response item_text item_body)
                 (json_response done_text done_body))
              {| ChainFetch.steps :=
                   [ step_A; with_body (JStr "plain text") step_B ];
                 ChainFetch.transforms := Some [ no_link; link_id ] |}))
    = true
  ∧ fst (ChainFetch.POST signed_in
           (answers (json_response item_text item_body)
              (json_response done_text done_body))
           {| ChainFetch.steps :=
                [ step_A; with_body (JStr "plain text") step_B ];
              ChainFetch.transforms := Some [ no_link; link_id ] |})
    = [ (step_A, Normal (json_result item_body)) ]
  ∧ ∃ step link,
      [ step_A; with_body (JStr "plain text") step_B ] !! 1 = Some step
      ∧ Some [ no_link; link_id ] ≫= (.!! 1) = Some link.
Proof.
  repeat (split; [reflexivity|]).
  destruct (failed_link_stops_chain signed_in
              (answers (json_response item_text item_body)
                 (json_response done_text done_body))
              {| ChainFetch.steps :=
                   [ step_A; with_body (JStr "plain text") step_B ];
                 ChainFetch.transforms := Some [ no_link; link_id ] |}
              "user-1" "token-1" eq_refl eq_refl eq_refl
              (Nat.lt_succ_diag_r 1))
    as (step & link & _ & Hstep & Hlink & _).
  exists step, link. split; [exact Hstep|exact Hlink].
Defined.
